(** * A minimal socket HTTP server: [http_server.py]

    A shallow embedding of the request pipeline of [http_server.py]
    (response builders, [parse_request], [response_path] and the connection
    handling of [server]) and the properties its specification states.

    Python values are modelled as the interpreter has them: a [str] is a
    sequence of Unicode code points, a [bytes] object a sequence of octets,
    a raised exception the [Raise] alternative of a [result].  The operating
    system is an explicit environment: a directory tree, the working
    directory, the [mimetypes] tables, what standard output accepts, and
    for every connection what its [recv] and [sendall] calls do. *)

From Stdlib Require Import List NArith Bool Lia.
From Stdlib.Strings Require Import Ascii String Byte.
From Stdlib Require Import DecimalString.
Import ListNotations.

Set Warnings "-register-all".

Local Open Scope N_scope.
Local Open Scope list_scope.

(* ================================================================== *)
(** * Python values and builtins *)

Module Py.

(** A code point; a [str] is a list of them, a [bytes] a list of octets. *)
Definition char := N.
Definition str := list char.
Definition bytes := list byte.

(** String literals.  Rocq strings have no escapes, so CR and LF are
    spelled out. *)
Definition CRLF : string := String "013"%char (String "010"%char EmptyString).
Definition LF : string := String "010"%char EmptyString.

Definition u (lit : string) : str := List.map N_of_ascii (list_ascii_of_string lit).
Definition b (lit : string) : bytes := list_byte_of_string lit.

(** Exceptions the program can meet.  [OSError] stands for the class with
    its subclasses (PermissionError, NotADirectoryError, ...). *)
Inductive exn :=
| NotImplementedError
| NameError
| IndexError
| AttributeError
| OSError
| UnicodeDecodeError
| UnicodeEncodeError.

Inductive result (A : Type) :=
| Ok (a : A)
| Raise (e : exn).
Arguments Ok {A} a.
Arguments Raise {A} e.

Definition bind {A B} (r : result A) (k : A -> result B) : result B :=
  match r with
  | Ok a => k a
  | Raise e => Raise e
  end.

(** [try: body except Exception: handler] *)
Definition try_except {A} (body : result A) (handler : exn -> result A) : result A :=
  match body with
  | Ok a => Ok a
  | Raise e => handler e
  end.

Definition is_ok {A} (r : result A) : bool :=
  match r with Ok _ => true | Raise _ => false end.

(** ** Sequences *)

Fixpoint eqb_str (x y : str) : bool :=
  match x, y with
  | [], [] => true
  | c :: x', d :: y' => (c =? d) && eqb_str x' y'
  | _, _ => false
  end.

(** [s.startswith(p)] *)
Fixpoint startswith (p x : str) : bool :=
  match p, x with
  | [], _ => true
  | c :: p', d :: x' => (c =? d) && startswith p' x'
  | _ :: _, [] => false
  end.

(** [s.endswith(p)] *)
Definition endswith (p x : str) : bool := startswith (rev p) (rev x).

(** [p in x]: [p] occurs in [x] as a substring. *)
Fixpoint contains (p x : str) : bool :=
  startswith p x ||
  match x with
  | [] => false
  | _ :: x' => contains p x'
  end.

(** [sep.join(l)], for [str] and for [bytes]. *)
Fixpoint join {A} (sep : list A) (l : list (list A)) : list A :=
  match l with
  | [] => []
  | x :: rest =>
      match rest with
      | [] => x
      | _ :: _ => x ++ sep ++ join sep rest
      end
  end.

(** [str.isspace] on one code point: the ASCII white space of
    [_Py_ascii_whitespace] and the Unicode white space of
    [_PyUnicode_IsWhitespace]. *)
Definition isspace (c : char) : bool :=
  ((0x09 <=? c) && (c <=? 0x0D)) ||
  ((0x1C <=? c) && (c <=? 0x20)) ||
  (c =? 0x85) || (c =? 0xA0) || (c =? 0x1680) ||
  ((0x2000 <=? c) && (c <=? 0x200A)) ||
  (c =? 0x2028) || (c =? 0x2029) || (c =? 0x202F) ||
  (c =? 0x205F) || (c =? 0x3000).

Definition emit (tok : str) (l : list str) : list str :=
  match tok with
  | [] => l
  | _ :: _ => tok :: l
  end.

(** [x.split()] with no argument: the maximal runs of characters that are
    not white space; [tok] is the run being read. *)
Fixpoint split_from (tok : str) (x : str) : list str :=
  match x with
  | [] => emit tok []
  | c :: x' =>
      if isspace c then emit tok (split_from [] x')
      else split_from (tok ++ [c]) x'
  end.

Definition split (x : str) : list str := split_from [] x.

(** [l[i]] *)
Definition index {A} (l : list A) (i : nat) : result A :=
  match nth_error l i with
  | Some a => Ok a
  | None => Raise IndexError
  end.

(** [x.split(sep)] for a one-character separator: empty pieces are kept. *)
Fixpoint split_sep (sep : char) (x : str) : list str :=
  match x with
  | [] => [[]]
  | c :: x' =>
      if c =? sep then [] :: split_sep sep x'
      else match split_sep sep x' with
           | h :: t => (c :: h) :: t
           | [] => [[c]]
           end
  end.

(** ** UTF-8 *)

Definition is_surrogate (c : char) : bool := (0xD800 <=? c) && (c <=? 0xDFFF).
Definition is_cont (x : N) : bool := (0x80 <=? x) && (x <=? 0xBF).

Definition push (c : char) (r : option str) : option str :=
  match r with
  | Some t => Some (c :: t)
  | None => None
  end.

(** [d.decode('utf8')], strict: [None] is UnicodeDecodeError.  Overlong
    forms, surrogates, values above U+10FFFF and truncated sequences are
    all refused. *)
Fixpoint utf8_decode (d : bytes) : option str :=
  match d with
  | [] => Some []
  | b0 :: r0 =>
      let x0 := Byte.to_N b0 in
      if x0 <? 0x80 then push x0 (utf8_decode r0)
      else if (0xC2 <=? x0) && (x0 <=? 0xDF) then
        match r0 with
        | b1 :: r1 =>
            let x1 := Byte.to_N b1 in
            if is_cont x1
            then push ((x0 - 0xC0) * 64 + (x1 - 0x80)) (utf8_decode r1)
            else None
        | _ => None
        end
      else if (0xE0 <=? x0) && (x0 <=? 0xEF) then
        match r0 with
        | b1 :: b2 :: r2 =>
            let x1 := Byte.to_N b1 in
            let x2 := Byte.to_N b2 in
            let c := (x0 - 0xE0) * 4096 + (x1 - 0x80) * 64 + (x2 - 0x80) in
            if is_cont x1 && is_cont x2 && (0x800 <=? c) && negb (is_surrogate c)
            then push c (utf8_decode r2)
            else None
        | _ => None
        end
      else if (0xF0 <=? x0) && (x0 <=? 0xF4) then
        match r0 with
        | b1 :: b2 :: b3 :: r3 =>
            let x1 := Byte.to_N b1 in
            let x2 := Byte.to_N b2 in
            let x3 := Byte.to_N b3 in
            let c := (x0 - 0xF0) * 262144 + (x1 - 0x80) * 4096
                     + (x2 - 0x80) * 64 + (x3 - 0x80) in
            if is_cont x1 && is_cont x2 && is_cont x3
               && (0x10000 <=? c) && (c <=? 0x10FFFF)
            then push c (utf8_decode r3)
            else None
        | _ => None
        end
      else None
  end.

Definition decode (d : bytes) : result str :=
  match utf8_decode d with
  | Some t => Ok t
  | None => Raise UnicodeDecodeError
  end.

Definition octet (n : N) : byte :=
  match Byte.of_N n with
  | Some x => x
  | None => x00
  end.

(** The UTF-8 form of one code point; a surrogate has none. *)
Definition utf8_char (c : char) : option bytes :=
  if c <? 0x80 then Some [octet c]
  else if c <? 0x800 then Some [octet (0xC0 + c / 64); octet (0x80 + c mod 64)]
  else if is_surrogate c then None
  else if c <? 0x10000 then
    Some [octet (0xE0 + c / 4096); octet (0x80 + (c / 64) mod 64);
          octet (0x80 + c mod 64)]
  else if c <=? 0x10FFFF then
    Some [octet (0xF0 + c / 262144); octet (0x80 + (c / 4096) mod 64);
          octet (0x80 + (c / 64) mod 64); octet (0x80 + c mod 64)]
  else None.

Fixpoint utf8_encode (x : str) : option bytes :=
  match x with
  | [] => Some []
  | c :: x' =>
      match utf8_char c, utf8_encode x' with
      | Some h, Some t => Some (h ++ t)
      | _, _ => None
      end
  end.

(** [x.encode()], strict: a lone surrogate (which [os.listdir] produces
    for a file name that is not UTF-8) raises UnicodeEncodeError. *)
Definition encode (x : str) : result bytes :=
  match utf8_encode x with
  | Some d => Ok d
  | None => Raise UnicodeEncodeError
  end.

End Py.

Import Py.

Notation "x <- e ;; k" := (bind e (fun x => k))
  (at level 61, e at next level, right associativity).

(* ================================================================== *)
(** * The operating system: files, [os.path], [mimetypes] *)

Module Posix.

(** What a path can name.  A file whose [data] is [None] exists but
    cannot be opened or read; a directory that is not [listable] can be
    traversed but not enumerated; [Other] is a FIFO, socket or device.
    The children of a directory are kept in enumeration order. *)
Inductive node :=
| File (data : option bytes)
| Dir (listable : bool) (children : list (str * node))
| Other.

(** The environment of the process: [os.getcwd()], the directory tree
    under "/", the first component of [mimetypes.guess_type], and what
    [print(text)] does on standard output: it prints, or it raises (a
    UnicodeEncodeError when the encoding of the stream has no form for a
    character of [text], an OSError when the stream is broken).  The
    environment stays the same while the server runs. *)
Record env := {
  cwd : str;
  root : node;
  guess_type : str -> option str;
  stdout_print : str -> result unit
}.

Definition SEP : char := 47.

(** [posixpath.join(a, p)] *)
Definition os_path_join (a p : str) : str :=
  if startswith [SEP] p then p
  else if match a with [] => true | _ :: _ => endswith [SEP] a end then a ++ p
  else a ++ [SEP] ++ p.

Fixpoint lookup (name : str) (children : list (str * node)) : option node :=
  match children with
  | [] => None
  | (n, x) :: rest => if eqb_str name n then Some x else lookup name rest
  end.

(** One component of a path walk.  The stack holds the node reached and
    its ancestors up to the root.  Every component is looked up in a
    directory (ENOTDIR otherwise); the empty component and "." stay,
    ".." goes to the parent, the root being its own parent. *)
Definition step (stack : list node) (c : str) : option (list node) :=
  match stack with
  | [] => None
  | Dir _ children :: up =>
      if eqb_str c [] || eqb_str c (u ".") then Some stack
      else if eqb_str c (u "..") then
        match up with
        | [] => Some stack
        | _ :: _ => Some up
        end
      else match lookup c children with
           | Some x => Some (x :: stack)
           | None => None
           end
  | _ :: _ => None
  end.

Fixpoint walk (stack : list node) (cs : list str) : option (list node) :=
  match cs with
  | [] => Some stack
  | c :: cs' =>
      match step stack c with
      | Some st => walk st cs'
      | None => None
      end
  end.

(** [os.stat] of an absolute path; [None] is ENOENT or ENOTDIR.  The
    kernel resolves ".." itself, against the tree. *)
Definition stat (e : env) (p : str) : option node :=
  if startswith [SEP] p then
    match walk [root e] (split_sep SEP p) with
    | Some (x :: _) => Some x
    | _ => None
    end
  else None.

Definition os_path_exists (e : env) (p : str) : bool :=
  match stat e p with
  | Some _ => true
  | None => false
  end.

Definition os_path_isfile (e : env) (p : str) : bool :=
  match stat e p with
  | Some (File _) => true
  | _ => false
  end.

(** [with open(p, "rb") as file: file.read()] *)
Definition read_file (e : env) (p : str) : result bytes :=
  match stat e p with
  | Some (File (Some d)) => Ok d
  | _ => Raise OSError
  end.

(** [os.listdir(p)]: the names, without "." and "..". *)
Definition os_listdir (e : env) (p : str) : result (list str) :=
  match stat e p with
  | Some (Dir true children) => Ok (List.map fst children)
  | _ => Raise OSError
  end.

(** ** Sockets *)

(** One call of [conn.recv(1024)]: it returns data or raises. *)
Inductive recv_result :=
| Data (d : bytes)
| RecvFails.

(** What [conn.sendall(response)] does: it writes the whole response, or
    it raises an OSError after [written] bytes of it have gone out. *)
Inductive send_result :=
| SendsAll
| SendFails (written : nat).

(** An accepted connection: the results of its successive [recv] calls
    and what its [sendall] does.  When [incoming] is used up the peer
    sends nothing more: [recv] blocks, or returns [b''] for ever once the
    peer has closed. *)
Record connection := {
  incoming : list recv_result;
  sending : send_result
}.

(** What can be observed of the handling of a connection: a response
    written in full, the first bytes of a response whose [sendall] raised,
    the traceback of the [except Exception] clause, the close. *)
Inductive event :=
| Sent (response : bytes)
| SentPart (d : bytes)
| Traceback (e : exn)
| Closed.

End Posix.

Import Posix.

(* ================================================================== *)
(** * [http_server.py] *)

Definition response_ok (body mimetype : bytes) : bytes :=
  join (b CRLF) [
    b "HTTP/1.1 200 OK";
    b "Content-Type: " ++ mimetype;
    b "";
    body
  ].

Definition response_method_not_allowed : bytes :=
  join (b CRLF) [
    b "HTTP/1.1 405 Method Not Allowed";
    b "Content-Type: text/html";
    b "";
    b "<html><h1>The request method is not allowed...";
    b "</h1></html>"
  ].

Definition response_not_found : bytes :=
  join (b CRLF) [
    b "HTTP/1.1 404 Not Found";
    b "Content-Type: text/plain";
    b "";
    b "Error encountered while visiting"
  ].

Definition parse_request (request : str) : result str :=
  if negb (contains (u "GET") request) then Raise NotImplementedError
  else index (split request) 1.

(** Line 96. *)
Definition webroot_path (e : env) (path : str) : str :=
  os_path_join (cwd e) (u "webroot" ++ path).

(** Line 107: [mimetypes.guess_type(webroot_path)[0].encode()]; calling
    [encode] on [None] raises AttributeError. *)
Definition guess_mime_type (e : env) (p : str) : result bytes :=
  match guess_type e p with
  | Some t => encode t
  | None => Raise AttributeError
  end.

Definition response_path (e : env) (path : str) : result (bytes * bytes) :=
  let webroot_path := webroot_path e path in
  if negb (os_path_exists e webroot_path) then Raise NameError
  else if os_path_isfile e webroot_path then
    try_except
      (mime_type <- guess_mime_type e webroot_path ;;
       content <- read_file e webroot_path ;;
       Ok (content, mime_type))
      (fun _ => Raise NameError)
  else
    let mime_type := b "text/plain" in
    names <- os_listdir e webroot_path ;;
    content <- encode (join (u CRLF) names) ;;
    Ok (content, mime_type).

(** The outcome of code that may also never return. *)
Inductive run (A : Type) :=
| Returns (r : result A)
| Never.
Arguments Returns {A} r.
Arguments Never {A}.

(** Lines 136-142: the read loop, started with the text read so far.  It
    leaves only when the text holds the header terminator or a call raises;
    when the peer has nothing more to send it never leaves. *)
Fixpoint read_request (rs : list recv_result) (request : str) : run str :=
  match rs with
  | [] => Never
  | RecvFails :: _ => Returns (Raise OSError)
  | Data d :: rs' =>
      match decode d with
      | Raise x => Returns (Raise x)
      | Ok t =>
          let request := request ++ t in
          if contains (u (CRLF ++ CRLF)) request then Returns (Ok request)
          else read_request rs' request
      end
  end.

(** Lines 146-164: the inner [try] with its two [except] clauses. *)
Definition build_response (e : env) (request : str) : result bytes :=
  match
    path <- parse_request request ;;
    cm <- response_path e path ;;
    Ok (response_ok (fst cm) (snd cm))
  with
  | Ok response => Ok response
  | Raise NotImplementedError => Ok response_method_not_allowed
  | Raise NameError => Ok response_not_found
  | Raise x => Raise x
  end.

(** Line 144: the request is echoed on standard output, inside the [try]
    of line 133 and before the request is parsed.  [echo_text] is the
    text handed to [print], which ends the line after it. *)
Definition echo_text (request : str) : str :=
  u ("Request received:" ++ LF) ++ request ++ u (LF ++ LF).

Definition echo (e : env) (request : str) : result unit :=
  stdout_print e (echo_text request).

(** The bytes a [sendall] that raises has written: some, never all. *)
Definition part (written : nat) (response : bytes) : bytes :=
  firstn (Nat.min written (Nat.pred (List.length response))) response.

Definition part_events (d : bytes) : list event :=
  match d with
  | [] => []
  | _ :: _ => [SentPart d]
  end.

(** Line 166: what [sendall] leaves on the connection, and how it ends. *)
Definition sendall (c : connection) (response : bytes) : list event * result unit :=
  match sending c with
  | SendsAll => ([Sent response], Ok tt)
  | SendFails written => (part_events (part written response), Raise OSError)
  end.

(** Lines 166-168: what a response handed to [sendall] leaves among the
    events: the response, or its first bytes and the traceback. *)
Definition delivery (c : connection) (response : bytes) : list event :=
  fst (sendall c response)
  ++ match snd (sendall c response) with
     | Ok _ => []
     | Raise x => [Traceback x]
     end.

(** How the handling of one connection ends: with its events in order, or
    never. *)
Inductive outcome :=
| Finished (events : list event)
| Stuck (events : list event).

Definition events_of (o : outcome) : list event :=
  match o with
  | Finished l => l
  | Stuck l => l
  end.

(** Lines 133-170: the body of the accept loop for one connection, with
    [except Exception] (the traceback) and [finally] (the close). *)
Definition handle_connection (e : env) (c : connection) : outcome :=
  match read_request (incoming c) [] with
  | Never => Stuck []
  | Returns r =>
      match
        request <- r ;;
        printed <- echo e request ;;
        build_response e request
      with
      | Raise x => Finished [Traceback x; Closed]
      | Ok response =>
          Finished (delivery c response ++ [Closed])
      end
  end.

(** Lines 130-170: the accept loop over the connections that arrive, one
    after the other; a connection that is never finished keeps the loop. *)
Fixpoint server (e : env) (conns : list connection) : list event :=
  match conns with
  | [] => []
  | c :: rest =>
      match handle_connection e c with
      | Finished l => l ++ server e rest
      | Stuck l => l
      end
  end.

(* ================================================================== *)
(** * Notions of the specification *)

(** The first line of a request: the text before the first CRLF, the whole
    text when there is none. *)
Fixpoint first_line (x : str) : str :=
  match x with
  | [] => []
  | c :: x' => if startswith (u CRLF) x then [] else c :: first_line x'
  end.

(** [p] occurs in [x] as a substring. *)
Definition occurs_in (p x : str) : Prop :=
  exists before after, x = before ++ p ++ after.

(** [d] begins with [p]. *)
Definition begins_with (p d : bytes) : Prop :=
  exists rest, d = p ++ rest.

(** The responses written among some events, in order. *)
Fixpoint responses (l : list event) : list bytes :=
  match l with
  | [] => []
  | Sent d :: l' => d :: responses l'
  | _ :: l' => responses l'
  end.

(** Every run of bytes written among some events, whole responses and
    parts of responses alike. *)
Fixpoint written (l : list event) : list bytes :=
  match l with
  | [] => []
  | Sent d :: l' => d :: written l'
  | SentPart d :: l' => d :: written l'
  | _ :: l' => written l'
  end.

(** One of the three responses the builders make for [e]. *)
Definition one_of_three (e : env) (r : bytes) : Prop :=
  (exists path content mimetype,
      response_path e path = Ok (content, mimetype)
      /\ r = response_ok content mimetype)
  \/ r = response_not_found
  \/ r = response_method_not_allowed.

(** Whether an unexpected failure was reported among some events. *)
Fixpoint failed (l : list event) : bool :=
  match l with
  | [] => false
  | Traceback _ :: _ => true
  | _ :: l' => failed l'
  end.

(** The handling of a connection ends, with at most one response followed
    by the close, and with exactly one response unless a failure was
    reported. *)
Definition answered_and_closed (o : outcome) : Prop :=
  exists l,
    o = Finished (l ++ [Closed]) /\
    ~ In Closed l /\
    (List.length (responses l) <= 1)%nat /\
    (failed l = false -> List.length (responses l) = 1%nat).

(** A [recv] call delivers the text [t]: it returns data and the data
    decodes to [t]. *)
Definition delivers (r : recv_result) (t : str) : Prop :=
  exists d, r = Data d /\ decode d = Ok t.

(** A code point that has a UTF-8 form. *)
Definition scalar (c : char) : Prop := c <= 0x10FFFF /\ is_surrogate c = false.

(* ================================================================== *)
(** * A small site, for concrete runs *)

Module Demo.

(** The tree under "/": the document root /srv/webroot, and next to it a
    file that is not part of the site. *)
Definition webroot : node :=
  Dir true [
    (u "index.html", File (Some (b "<html></html>")));
    (u "notes", File (Some (b "no extension")));
    (u "locked.txt", File None);
    (u "images", Dir true [ (u "b.png", File (Some (b "PNG"))); (u "a.png", File (Some (b "PNG"))) ]);
    (u "empty", Dir true []);
    (u "private", Dir false [ (u "diary.txt", File (Some (b "dear diary"))) ]);
    (u "odd", Dir true [ ([0x66; 0xDCFF], File (Some (b "name that is not UTF-8"))) ]);
    (u "pipe", Other)
  ].

Definition tree : node :=
  Dir true [ (u "srv", Dir true [ (u "webroot", webroot);
                                  (u "secret.txt", File (Some (b "top secret"))) ]) ].

(** The extension table, cut down to three entries. *)
Definition types (p : str) : option str :=
  if endswith (u ".html") p then Some (u "text/html")
  else if endswith (u ".txt") p then Some (u "text/plain")
  else if endswith (u ".png") p then Some (u "image/png")
  else None.

(** A standard output that prints every text (UTF-8), and one that has
    forms for ASCII only. *)
Definition prints_all (text : str) : result unit := Ok tt.

Definition prints_ascii (text : str) : result unit :=
  if forallb (fun c => c <? 0x80) text then Ok tt else Raise UnicodeEncodeError.

Definition site : env :=
  {| cwd := u "/srv"; root := tree; guess_type := types; stdout_print := prints_all |}.

Definition ascii_site : env :=
  {| cwd := u "/srv"; root := tree; guess_type := types; stdout_print := prints_ascii |}.

(** A client that sends [text] in one piece and reads the answer. *)
Definition client (text : string) : connection :=
  {| incoming := [Data (b text)]; sending := SendsAll |}.

(** A client that sends a request line and then closes its end. *)
Definition half_request : connection :=
  {| incoming := [Data (b ("GET / HTTP/1.1" ++ CRLF)); Data []]; sending := SendsAll |}.

(** A client that sends [data] in one piece and goes away while the
    answer is written, after [written] bytes of it. *)
Definition leaves (data : bytes) (written : nat) : connection :=
  {| incoming := [Data data]; sending := SendFails written |}.

End Demo.

(* ================================================================== *)
(** * The listener: [server] from start to return *)

(** How many times a connection is closed among some events. *)
Fixpoint closes (l : list event) : nat :=
  match l with
  | [] => 0%nat
  | Closed :: l' => S (closes l')
  | _ :: l' => closes l'
  end.

(** The events of a handling that come before the close of line 170. *)
Fixpoint before_close (l : list event) : list event :=
  match l with
  | [] => []
  | Closed :: _ => []
  | ev :: l' => ev :: before_close l'
  end.

(** Where a KeyboardInterrupt arrives once [accept] has returned a
    connection.  KeyboardInterrupt is no [Exception]: it passes the
    [except Exception] of line 167 and reaches the clause of line 172,
    through the [finally] of line 169 when it arrives inside the inner
    [try].
    - [BeforeTry]: between lines 132 and 133, the inner [try] not yet
      entered;
    - [InTry seen]: in lines 134-168, when [seen] outputs of the handling
      have been made (or all of them, when there are fewer): while [recv]
      waits, while the response is built, after [sendall], in the
      [except] clause;
    - [InSendall written]: in the [sendall] of line 166, when [written]
      bytes have been written and some are left;
    - [InFinally]: in line 170, before [conn.close()] has run.
    A point the handling never comes to is not reached, and the
    interrupt does not arrive.  A print is taken as one step. *)
Inductive interrupt_point :=
| BeforeTry
| InTry (seen : nat)
| InSendall (written : nat)
| InFinally.

(** One turn of the loop of line 130: [accept] returns a connection with
    the address of its peer and the connection is handled; a
    KeyboardInterrupt arrives while an accepted connection is handled;
    one arrives before the print of line 131, or while [accept] waits; or
    [accept] raises an OSError. *)
Inductive accept_result :=
| Accepted (c : connection) (host : str) (port : N)
| Interrupted (c : connection) (host : str) (port : N) (point : interrupt_point)
| LoopInterrupted
| AcceptInterrupted
| AcceptFails.

(** Lines 122-127, which no [try] protects: all goes well; creating or
    configuring the socket raises an OSError (lines 123-124); [bind] or
    [listen] raises one (lines 126, 127); or a KeyboardInterrupt arrives,
    before or after the first line is printed. *)
Inductive start_result :=
| Starts
| SocketFails
| BindFails
| ListenFails
| StartInterrupted (logged : bool).

(** What the listening socket meets: the start, and the successive turns
    of the accept loop.  When [accepts] is used up no client connects any
    more and [accept] waits for ever. *)
Record listener := {
  start : start_result;
  accepts : list accept_result
}.

(** What [server] does that can be observed: a line printed to
    [log_buffer], a text printed to standard output, an event on the
    accepted connection, the traceback of the outer [except Exception],
    the [sock.close()] of line 173.  Printing to [log_buffer] and
    printing a traceback are taken to succeed. *)
Inductive server_event :=
| Log (line : str)
| Stdout (text : str)
| Conn (ev : event)
| ServerTraceback (x : exn)
| SockClosed.

(** How a call of [server] ends: it returns, an exception leaves it, a
    KeyboardInterrupt leaves it, or it never ends. *)
Inductive server_end :=
| Returned
| Propagated (x : exn)
| PropagatedInterrupt
| Waiting.

(** [str(n)] of a port number. *)
Definition decimal (n : N) : str := u (NilEmpty.string_of_uint (N.to_uint n)).

(** ["{0}:{1}".format(host, port)] *)
Definition format_addr (host : str) (port : N) : str :=
  host ++ u ":" ++ decimal port.

(** Line 144 as seen on standard output: the echo, when the read loop
    handed over a request and the print did not raise. *)
Definition echoed (e : env) (c : connection) : list server_event :=
  match read_request (incoming c) [] with
  | Returns (Ok request) =>
      match echo e request with
      | Ok _ => [Stdout (echo_text request)]
      | Raise _ => []
      end
  | _ => []
  end.

(** Lines 134-168 for one accepted connection: the log line, the echo,
    and the events of the handling short of the close. *)
Definition try_outputs (e : env) (c : connection) (host : str) (port : N)
  : list server_event :=
  Log (u "connection - " ++ format_addr host port)
  :: echoed e c
  ++ List.map Conn (before_close (events_of (handle_connection e c))).

(** Lines 134-170 for one accepted connection, no interrupt arriving. *)
Definition serve_connection (e : env) (c : connection) (host : str) (port : N)
  : list server_event :=
  Log (u "connection - " ++ format_addr host port)
  :: echoed e c
  ++ List.map Conn (events_of (handle_connection e c)).

(** The response line 166 hands to [sendall], when the handling gets
    there. *)
Definition handed (e : env) (c : connection) : option bytes :=
  match read_request (incoming c) [] with
  | Never => None
  | Returns r =>
      match request <- r ;; printed <- echo e request ;; build_response e request with
      | Raise _ => None
      | Ok response => Some response
      end
  end.

(** Whether the handling of [c] comes to an interrupt point. *)
Definition reached (e : env) (c : connection) (point : interrupt_point) : bool :=
  match point with
  | BeforeTry => true
  | InTry _ => true
  | InSendall _ => match handed e c with Some _ => true | None => false end
  | InFinally => match handle_connection e c with Finished _ => true | Stuck _ => false end
  end.

(** What has been observed of a handling when the interrupt arrives at
    [point], and the [finally] of line 169 has run if the inner [try] had
    been entered.  An interrupted [sendall] has written a beginning of the
    response, no longer than what the connection lets through. *)
Definition interrupted_at
           (e : env) (c : connection) (host : str) (port : N) (point : interrupt_point)
  : list server_event :=
  match point with
  | BeforeTry => []
  | InTry seen => firstn seen (try_outputs e c host port) ++ [Conn Closed]
  | InSendall written =>
      Log (u "connection - " ++ format_addr host port)
      :: echoed e c
      ++ List.map Conn
           match handed e c with
           | None => []
           | Some response =>
               part_events
                 (part match sending c with
                       | SendsAll => written
                       | SendFails n => Nat.min written n
                       end
                       response)
           end
      ++ [Conn Closed]
  | InFinally => try_outputs e c host port
  end.

(** A turn with a connection that no interrupt cuts short: the loop goes
    on when the handling ends and hangs when it does not. *)
Definition handled (e : env) (c : connection) (host : str) (port : N)
  : list server_event * option server_end :=
  (Log (u "waiting for a connection") :: serve_connection e c host port,
   match handle_connection e c with
   | Finished _ => None
   | Stuck _ => Some Waiting
   end).

(** Lines 131-170 and the two outer [except] clauses: one turn of the
    loop, with what ends [server] there, if anything. *)
Definition turn (e : env) (a : accept_result) : list server_event * option server_end :=
  match a with
  | LoopInterrupted => ([SockClosed], Some Returned)
  | AcceptInterrupted =>
      ([Log (u "waiting for a connection"); SockClosed], Some Returned)
  | AcceptFails =>
      ([Log (u "waiting for a connection"); ServerTraceback OSError], Some Returned)
  | Accepted c host port => handled e c host port
  | Interrupted c host port point =>
      if reached e c point
      then (Log (u "waiting for a connection")
              :: interrupted_at e c host port point ++ [SockClosed],
            Some Returned)
      else handled e c host port
  end.

(** Lines 129-176: the accept loop with its two outer [except] clauses. *)
Fixpoint accept_loop (e : env) (l : list accept_result) : list server_event * server_end :=
  match l with
  | [] => ([Log (u "waiting for a connection")], Waiting)
  | a :: rest =>
      match snd (turn e a) with
      | Some ended => (fst (turn e a), ended)
      | None => (fst (turn e a) ++ fst (accept_loop e rest), snd (accept_loop e rest))
      end
  end.

(** Lines 121-176: [server(log_buffer)].  The first line is printed before
    [bind]; whatever is raised in lines 122-127 is outside every [try] and
    leaves the function. *)
Definition server_run (e : env) (l : listener) : list server_event * server_end :=
  let first := Log (u "making a server on " ++ format_addr (u "127.0.0.1") 10000) in
  match start l with
  | Starts => (first :: fst (accept_loop e (accepts l)), snd (accept_loop e (accepts l)))
  | SocketFails => ([], Propagated OSError)
  | BindFails => ([first], Propagated OSError)
  | ListenFails => ([first], Propagated OSError)
  | StartInterrupted logged => (if logged then [first] else [], PropagatedInterrupt)
  end.




(** A turn after which the loop goes on: a connection is handled to its
    end and no interrupt arrives. *)
Definition passes (e : env) (a : accept_result) : bool :=
  match a with
  | Accepted c _ _ =>
      match handle_connection e c with Finished _ => true | Stuck _ => false end
  | Interrupted c _ _ point =>
      negb (reached e c point)
      && match handle_connection e c with Finished _ => true | Stuck _ => false end
  | _ => false
  end.

(** A turn in which a KeyboardInterrupt arrives. *)
Definition strikes (e : env) (a : accept_result) : bool :=
  match a with
  | Interrupted c _ _ point => reached e c point
  | LoopInterrupted => true
  | AcceptInterrupted => true
  | _ => false
  end.

Module Backup.

(** A working directory that holds, next to the document root, a
    directory whose name begins with "webroot". *)
Definition tree : node :=
  Dir true [ (u "srv", Dir true [ (u "webroot", Dir true [ (u "index.html", File (Some (b "<html></html>"))) ]);
                                  (u "webroot.bak", Dir true [ (u "passwords.txt", File (Some (b "hunter2"))) ]) ]) ].

Definition site : env :=
  {| cwd := u "/srv"; root := tree; guess_type := Demo.types;
     stdout_print := Demo.prints_all |}.

End Backup.

(* ================================================================== *)
(** * Sequences: substring test and [split] *)

Section Sequences.

Implicit Types (p x y r : str) (w : char).

Lemma startswith_app (p r : str) : startswith p (p ++ r) = true.
Proof.
  induction p as [|c p IH]; simpl; [reflexivity|].
  now rewrite N.eqb_refl, IH.
Qed.

Lemma startswith_inv (p x : str) :
  startswith p x = true -> exists r, x = p ++ r.
Proof.
  revert x; induction p as [|c p IH]; intros x H.
  - now exists x.
  - destruct x as [|d x]; simpl in H; [discriminate|].
    apply andb_prop in H as [Hc Hp].
    apply N.eqb_eq in Hc; subst d.
    destruct (IH _ Hp) as [r ->].
    now exists r.
Qed.

Lemma contains_startswith (p x : str) :
  startswith p x = true -> contains p x = true.
Proof. intros H; destruct x; simpl; now rewrite H. Qed.

Lemma contains_occurs (p x : str) :
  contains p x = true <-> occurs_in p x.
Proof.
  split.
  - induction x as [|c x IH]; simpl; intros H.
    + rewrite orb_false_r in H.
      destruct (startswith_inv _ _ H) as [r Hr].
      now exists [], r.
    + apply orb_prop in H as [H|H].
      * destruct (startswith_inv _ _ H) as [r Hr].
        now exists [], r.
      * destruct (IH H) as (a & r & ->).
        now exists (c :: a), r.
  - intros (a & r & ->).
    induction a as [|c a IH]; simpl.
    + apply contains_startswith, startswith_app.
    + rewrite IH. apply orb_true_r.
Qed.

Lemma emit_app (tok : str) (l l' : list str) :
  emit tok l ++ l' = emit tok (l ++ l').
Proof. now destruct tok. Qed.

(** Splitting commutes with cutting the text at a white-space character. *)
Lemma split_from_cut (x y : str) (w : char) :
  isspace w = true ->
  forall tok, split_from tok (x ++ w :: y) = split_from tok x ++ split y.
Proof.
  intros Hw; induction x as [|c x IH]; intros tok; simpl.
  - rewrite Hw. now rewrite emit_app.
  - destruct (isspace c).
    + rewrite IH, emit_app. reflexivity.
    + apply IH.
Qed.

Lemma split_cut (x y : str) (w : char) :
  isspace w = true -> split (x ++ w :: y) = split x ++ split y.
Proof. intros Hw; apply split_from_cut, Hw. Qed.

(** A text is its first line, or its first line, a CRLF and the rest. *)
Lemma first_line_cut (x : str) :
  x = first_line x \/ exists rest, x = first_line x ++ u CRLF ++ rest.
Proof.
  induction x as [|c x IH]; [now left|].
  cbn [first_line].
  destruct (startswith (u CRLF) (c :: x)) eqn:E.
  - right. destruct (startswith_inv _ _ E) as [r Hr]. now exists r.
  - destruct IH as [IH|[rest IH]].
    + left. now rewrite <- IH.
    + right. exists rest. rewrite <- app_comm_cons. now f_equal.
Qed.

(** The tokens of the first line are the first tokens of the text. *)
Lemma split_first_line (x : str) :
  exists more, split x = split (first_line x) ++ more.
Proof.
  destruct (first_line_cut x) as [E|[rest E]].
  - exists []. now rewrite app_nil_r, <- E.
  - exists (split (List.tl (u CRLF) ++ rest)).
    rewrite E at 1.
    change (u CRLF ++ rest) with (13 :: (List.tl (u CRLF) ++ rest)).
    now apply split_cut.
Qed.

End Sequences.

(* ================================================================== *)
(** * UTF-8: checks on known encodings *)

Example decode_ascii :
  decode (b "GET / HTTP/1.1") = Ok (u "GET / HTTP/1.1").
Proof. reflexivity. Qed.

(** U+20AC is E2 82 AC, U+1F600 is F0 9F 98 80, U+E9 is C3 A9. *)
Example decode_multibyte :
  utf8_decode [xe2; x82; xac; xf0; x9f; x98; x80; xc3; xa9] = Some [0x20AC; 0x1F600; 0xE9]
  /\ utf8_encode [0x20AC; 0x1F600; 0xE9] = Some [xe2; x82; xac; xf0; x9f; x98; x80; xc3; xa9].
Proof. split; reflexivity. Qed.

(** Overlong forms, encoded surrogates and stray continuation bytes are
    refused, and so is a character cut by the end of a [recv] chunk. *)
Example decode_refuses :
  utf8_decode [xc0; x80] = None
  /\ utf8_decode [xed; xa0; x80] = None
  /\ utf8_decode [x80] = None
  /\ utf8_decode [xf4; x90; x80; x80] = None
  /\ utf8_decode [xe2; x82] = None.
Proof. repeat split; reflexivity. Qed.

Example encode_refuses_surrogate : encode [0x61; 0xDCFF] = Raise UnicodeEncodeError.
Proof. reflexivity. Qed.

(** ** Decoding undoes encoding *)

Lemma to_N_octet (n : N) : n < 256 -> Byte.to_N (octet n) = n.
Proof.
  intros H. unfold octet.
  destruct (Byte.of_N n) as [x|] eqn:E.
  - now apply Byte.to_of_N in E.
  - apply Byte.of_N_None_iff in E. lia.
Qed.

(** The digits of a code point in base 64, as the UTF-8 forms use them. *)
Lemma base64_digits (c : char) :
  exists d0 d1 d2 d3,
    c mod 64 = d0 /\ (c / 64) mod 64 = d1 /\ (c / 4096) mod 64 = d2 /\ c / 262144 = d3
    /\ c / 64 = d1 + 64 * (d2 + 64 * d3) /\ c / 4096 = d2 + 64 * d3
    /\ c = d0 + 64 * (d1 + 64 * (d2 + 64 * d3))
    /\ d0 < 64 /\ d1 < 64 /\ d2 < 64.
Proof.
  exists (c mod 64), ((c / 64) mod 64), ((c / 4096) mod 64), (c / 262144).
  pose proof (N.div_mod' c 64) as H0.
  pose proof (N.div_mod' (c / 64) 64) as H1.
  pose proof (N.div_mod' (c / 4096) 64) as H2.
  rewrite (N.Div0.div_div c 64 64) in H1 by discriminate.
  rewrite (N.Div0.div_div c 4096 64) in H2 by discriminate.
  change (64 * 64) with 4096 in H1. change (4096 * 64) with 262144 in H2.
  pose proof (N.mod_lt c 64) as L0.
  pose proof (N.mod_lt (c / 64) 64) as L1.
  pose proof (N.mod_lt (c / 4096) 64) as L2.
  repeat split; lia.
Qed.

Lemma utf8_decode_cons (b0 : byte) (r0 : bytes) :
  utf8_decode (b0 :: r0) =
        let x0 := Byte.to_N b0 in
        if x0 <? 0x80 then push x0 (utf8_decode r0)
        else if (0xC2 <=? x0) && (x0 <=? 0xDF) then
          match r0 with
          | b1 :: r1 =>
              let x1 := Byte.to_N b1 in
              if is_cont x1
              then push ((x0 - 0xC0) * 64 + (x1 - 0x80)) (utf8_decode r1)
              else None
          | _ => None
          end
        else if (0xE0 <=? x0) && (x0 <=? 0xEF) then
          match r0 with
          | b1 :: b2 :: r2 =>
              let x1 := Byte.to_N b1 in
              let x2 := Byte.to_N b2 in
              let c := (x0 - 0xE0) * 4096 + (x1 - 0x80) * 64 + (x2 - 0x80) in
              if is_cont x1 && is_cont x2 && (0x800 <=? c) && negb (is_surrogate c)
              then push c (utf8_decode r2)
              else None
          | _ => None
          end
        else if (0xF0 <=? x0) && (x0 <=? 0xF4) then
          match r0 with
          | b1 :: b2 :: b3 :: r3 =>
              let x1 := Byte.to_N b1 in
              let x2 := Byte.to_N b2 in
              let x3 := Byte.to_N b3 in
              let c := (x0 - 0xF0) * 262144 + (x1 - 0x80) * 4096
                       + (x2 - 0x80) * 64 + (x3 - 0x80) in
              if is_cont x1 && is_cont x2 && is_cont x3
                 && (0x10000 <=? c) && (c <=? 0x10FFFF)
              then push c (utf8_decode r3)
              else None
          | _ => None
          end
        else None.
Proof. reflexivity. Qed.

Ltac leb_true := symmetry; repeat (apply andb_true_intro; split);
                 try apply N.leb_le; try apply N.ltb_lt; lia.
Ltac leb_false := symmetry; try apply N.ltb_ge; try apply N.leb_gt; lia.

Ltac take_bytes :=
  match goal with
  | |- Some ?l = Some ?h -> _ =>
      let H := fresh in
      intros H; assert (h = l) by congruence; clear H; subst h
  end.

Lemma utf8_decode_char (c : char) (h t : bytes) :
  utf8_char c = Some h -> utf8_decode (h ++ t) = push c (utf8_decode t).
Proof.
  unfold utf8_char.
  destruct (base64_digits c)
    as (d0 & d1 & d2 & d3 & -> & -> & -> & -> & -> & -> & Hc & L0 & L1 & L2).
  destruct (c <? 0x80) eqn:E1.
  { take_bytes. apply N.ltb_lt in E1. cbv beta iota delta [app]; rewrite utf8_decode_cons; cbv beta iota zeta.
    rewrite to_N_octet by lia. apply N.ltb_lt in E1. now rewrite E1. }
  apply N.ltb_ge in E1.
  destruct (c <? 0x800) eqn:E2.
  { take_bytes. apply N.ltb_lt in E2. cbv beta iota delta [app]; rewrite utf8_decode_cons; cbv beta iota zeta.
    rewrite !to_N_octet by lia.
    replace (0xC0 + (d1 + 64 * (d2 + 64 * d3)) <? 0x80) with false by leb_false.
    replace ((0xC2 <=? 0xC0 + (d1 + 64 * (d2 + 64 * d3)))
             && (0xC0 + (d1 + 64 * (d2 + 64 * d3)) <=? 0xDF)) with true by leb_true.
    unfold is_cont.
    replace ((0x80 <=? 0x80 + d0) && (0x80 + d0 <=? 0xBF)) with true by leb_true.
    f_equal. lia. }
  apply N.ltb_ge in E2.
  destruct (is_surrogate c) eqn:E3; [discriminate|].
  destruct (c <? 0x10000) eqn:E4.
  { take_bytes. apply N.ltb_lt in E4. cbv beta iota delta [app]; rewrite utf8_decode_cons; cbv beta iota zeta.
    rewrite !to_N_octet by lia.
    replace (0xE0 + (d2 + 64 * d3) <? 0x80) with false by leb_false.
    replace ((0xC2 <=? 0xE0 + (d2 + 64 * d3)) && (0xE0 + (d2 + 64 * d3) <=? 0xDF))
      with false by (symmetry; apply andb_false_intro2; apply N.leb_gt; lia).
    replace ((0xE0 <=? 0xE0 + (d2 + 64 * d3)) && (0xE0 + (d2 + 64 * d3) <=? 0xEF))
      with true by leb_true.
    unfold is_cont.
    replace ((0x80 <=? 0x80 + d1) && (0x80 + d1 <=? 0xBF)) with true by leb_true.
    replace ((0x80 <=? 0x80 + d0) && (0x80 + d0 <=? 0xBF)) with true by leb_true.
    replace ((0xE0 + (d2 + 64 * d3) - 0xE0) * 4096 + (0x80 + d1 - 0x80) * 64
             + (0x80 + d0 - 0x80)) with c by lia.
    rewrite E3.
    replace (0x800 <=? c) with true by leb_true.
    reflexivity. }
  apply N.ltb_ge in E4.
  destruct (c <=? 0x10FFFF) eqn:E5; [|discriminate].
  take_bytes. apply N.leb_le in E5. cbv beta iota delta [app]; rewrite utf8_decode_cons; cbv beta iota zeta.
  rewrite !to_N_octet by lia.
  replace (0xF0 + d3 <? 0x80) with false by leb_false.
  replace ((0xC2 <=? 0xF0 + d3) && (0xF0 + d3 <=? 0xDF))
    with false by (symmetry; apply andb_false_intro2; apply N.leb_gt; lia).
  replace ((0xE0 <=? 0xF0 + d3) && (0xF0 + d3 <=? 0xEF))
    with false by (symmetry; apply andb_false_intro2; apply N.leb_gt; lia).
  replace ((0xF0 <=? 0xF0 + d3) && (0xF0 + d3 <=? 0xF4)) with true by leb_true.
  unfold is_cont.
  replace ((0x80 <=? 0x80 + d2) && (0x80 + d2 <=? 0xBF)) with true by leb_true.
  replace ((0x80 <=? 0x80 + d1) && (0x80 + d1 <=? 0xBF)) with true by leb_true.
  replace ((0x80 <=? 0x80 + d0) && (0x80 + d0 <=? 0xBF)) with true by leb_true.
  replace ((0xF0 + d3 - 0xF0) * 262144 + (0x80 + d2 - 0x80) * 4096
           + (0x80 + d1 - 0x80) * 64 + (0x80 + d0 - 0x80)) with c by lia.
  replace (0x10000 <=? c) with true by leb_true.
  replace (c <=? 0x10FFFF) with true by leb_true.
  reflexivity.
Qed.

(** Decoding undoes encoding. *)
Lemma utf8_decode_encode (x : str) (d : bytes) :
  utf8_encode x = Some d -> utf8_decode d = Some x.
Proof.
  revert d; induction x as [|c x IH]; intros d; simpl.
  - now intros [= <-].
  - destruct (utf8_char c) as [h|] eqn:Eh; [|discriminate].
    destruct (utf8_encode x) as [t|]; [|discriminate].
    intros [= <-]. rewrite (utf8_decode_char c h t Eh), (IH t eq_refl). reflexivity.
Qed.

(** [split] on the white space of a request. *)
Example split_request :
  split (u ("GET  /a b.html" ++ CRLF ++ "Host: x" ++ CRLF ++ CRLF))
    = [u "GET"; u "/a"; u "b.html"; u "Host:"; u "x"].
Proof. reflexivity. Qed.

(* ================================================================== *)
(** * The response builders *)

(** C4: [response_ok(body, mimetype)] is exactly the status line, the
    [Content-Type] header carrying [mimetype], a blank line and [body]; for
    the body [<html></html>] and the type [text/html] it is the response of
    the specification's scenario. *)
Theorem response_ok_layout (body mimetype : bytes) :
  response_ok body mimetype
    = b ("HTTP/1.1 200 OK" ++ CRLF ++ "Content-Type: ") ++ mimetype
        ++ b (CRLF ++ CRLF) ++ body
  /\ response_ok (b "<html></html>") (b "text/html")
    = b ("HTTP/1.1 200 OK" ++ CRLF ++ "Content-Type: text/html" ++ CRLF ++ CRLF
         ++ "<html></html>").
Proof.
  split; [|reflexivity].
  unfold response_ok; cbn [join].
  change (b ("HTTP/1.1 200 OK" ++ CRLF ++ "Content-Type: "))
    with (b "HTTP/1.1 200 OK" ++ b CRLF ++ b "Content-Type: ").
  change (b (CRLF ++ CRLF)) with (b CRLF ++ b "" ++ b CRLF).
  now rewrite <- !app_assoc.
Qed.

Lemma response_not_found_bytes :
  response_not_found
    = b ("HTTP/1.1 404 Not Found" ++ CRLF ++ "Content-Type: text/plain" ++ CRLF
         ++ CRLF ++ "Error encountered while visiting").
Proof. reflexivity. Qed.

Lemma response_method_not_allowed_bytes :
  response_method_not_allowed
    = b ("HTTP/1.1 405 Method Not Allowed" ++ CRLF ++ "Content-Type: text/html"
         ++ CRLF ++ CRLF ++ "<html><h1>The request method is not allowed..."
         ++ CRLF ++ "</h1></html>").
Proof. reflexivity. Qed.

Lemma response_ok_status (body mimetype : bytes) :
  begins_with (b "HTTP/1.1 200 OK") (response_ok body mimetype).
Proof. eexists; unfold response_ok; cbn [join]; reflexivity. Qed.

Lemma response_not_found_status :
  begins_with (b "HTTP/1.1 404 Not Found") response_not_found.
Proof. eexists; unfold response_not_found; cbn [join]; reflexivity. Qed.

Lemma response_method_not_allowed_status :
  begins_with (b "HTTP/1.1 405 Method Not Allowed") response_method_not_allowed.
Proof. eexists; unfold response_method_not_allowed; cbn [join]; reflexivity. Qed.

(* ================================================================== *)
(** * [parse_request] *)

Lemma parse_request_cases (request : str) :
  (contains (u "GET") request = false /\ parse_request request = Raise NotImplementedError)
  \/ (contains (u "GET") request = true /\ parse_request request = index (split request) 1).
Proof.
  unfold parse_request.
  destruct (contains (u "GET") request); [right|left]; now split.
Qed.

Lemma index_raises {A} (l : list A) (i : nat) (x : exn) :
  index l i = Raise x -> x = IndexError /\ (List.length l <= i)%nat.
Proof.
  unfold index. destruct (nth_error l i) eqn:E; [discriminate|].
  intros [= <-]. split; [reflexivity|]. now apply nth_error_None.
Qed.

(** C1, as stated, is false: the second token of the text need not be on
    its first line.  For the request "GET", CRLF, "Host: x", CRLF, CRLF,
    which contains GET and has three tokens, [parse_request] returns
    "Host:", while the first line, "GET", has no second token. *)
Lemma parse_request_first_line_counterexample :
  ~ (forall request : str,
        contains (u "GET") request = true ->
        (2 <= List.length (split request))%nat ->
        exists t, nth_error (split (first_line request)) 1 = Some t
                  /\ parse_request request = Ok t).
Proof.
  intros H.
  destruct (H (u ("GET" ++ CRLF ++ "Host: x" ++ CRLF ++ CRLF))) as (t & Ht & _).
  - reflexivity.
  - vm_compute. lia.
  - vm_compute in Ht. discriminate Ht.
Qed.

(** C1, amended: for a request that contains GET and has at least two
    white-space delimited tokens, [parse_request] returns the second token
    of the whole request text; that is the second token of the first line
    whenever the first line has two tokens.  In particular the request
    "GET /foo.html HTTP/1.1", CRLF, CRLF gives "/foo.html". *)
Theorem parse_request_second_token :
  (forall request : str,
      contains (u "GET") request = true ->
      (2 <= List.length (split request))%nat ->
      exists t, nth_error (split request) 1 = Some t
                /\ parse_request request = Ok t
                /\ ((2 <= List.length (split (first_line request)))%nat ->
                    nth_error (split (first_line request)) 1 = Some t))
  /\ parse_request (u ("GET /foo.html HTTP/1.1" ++ CRLF ++ CRLF)) = Ok (u "/foo.html").
Proof.
  split; [|reflexivity].
  intros request Hget Hlen.
  destruct (nth_error (split request) 1) as [t|] eqn:E.
  - exists t. split; [reflexivity|]. split.
    + unfold parse_request, index. now rewrite Hget, E.
    + intros Hfirst.
      destruct (split_first_line request) as [more Hmore].
      rewrite Hmore in E.
      rewrite nth_error_app1 in E; [exact E | lia].
  - apply nth_error_None in E. lia.
Qed.

Lemma parse_request_second_token_witness :
  contains (u "GET") (u ("GET /index.html HTTP/1.1" ++ CRLF ++ "Host: x" ++ CRLF ++ CRLF)) = true
  /\ exists t, nth_error (split (u ("GET /index.html HTTP/1.1" ++ CRLF ++ "Host: x" ++ CRLF ++ CRLF))) 1 = Some t
               /\ parse_request (u ("GET /index.html HTTP/1.1" ++ CRLF ++ "Host: x" ++ CRLF ++ CRLF)) = Ok t
               /\ t = u "/index.html".
Proof.
  split; [reflexivity|].
  destruct (proj1 parse_request_second_token
              (u ("GET /index.html HTTP/1.1" ++ CRLF ++ "Host: x" ++ CRLF ++ CRLF)))
    as (t & Ht & Hp & _).
  - reflexivity.
  - vm_compute. lia.
  - exists t. repeat split; [exact Ht | exact Hp |].
    vm_compute in Ht. now injection Ht as <-.
Defined.

(* ================================================================== *)
(** * The connection handler *)

(** What the handler does once the read loop has produced a request. *)
Lemma handle_connection_request (e : env) (c : connection) (request : str) :
  read_request (incoming c) [] = Returns (Ok request) ->
  handle_connection e c =
    match (printed <- echo e request ;; build_response e request) with
    | Raise x => Finished [Traceback x; Closed]
    | Ok response => Finished (delivery c response ++ [Closed])
    end.
Proof. intros H. unfold handle_connection. now rewrite H. Qed.

Lemma delivery_cases (c : connection) (d : bytes) :
  delivery c d =
    match sending c with
    | SendsAll => [Sent d]
    | SendFails n => part_events (part n d) ++ [Traceback OSError]
    end.
Proof. unfold delivery, sendall. now destruct (sending c). Qed.

(** A response that was built after the echo is handed to [sendall], and
    the connection is closed. *)
Lemma handle_connection_response (e : env) (c : connection) (request : str) (d : bytes) :
  read_request (incoming c) [] = Returns (Ok request) ->
  echo e request = Ok tt ->
  build_response e request = Ok d ->
  handle_connection e c = Finished (delivery c d ++ [Closed]).
Proof.
  intros Hr He Hb. rewrite (handle_connection_request e c request Hr), He.
  cbn [bind]. now rewrite Hb.
Qed.

(** A failure while building the response is reported and nothing is sent. *)
Lemma handle_connection_failure (e : env) (c : connection) (request : str) (x : exn) :
  read_request (incoming c) [] = Returns (Ok request) ->
  echo e request = Ok tt ->
  build_response e request = Raise x ->
  handle_connection e c = Finished [Traceback x; Closed].
Proof.
  intros Hr He Hb. rewrite (handle_connection_request e c request Hr), He.
  cbn [bind]. now rewrite Hb.
Qed.

(** An echo that raises ends the handling before the request is parsed. *)
Lemma handle_connection_unprinted (e : env) (c : connection) (request : str) (x : exn) :
  read_request (incoming c) [] = Returns (Ok request) ->
  echo e request = Raise x ->
  handle_connection e c = Finished [Traceback x; Closed].
Proof.
  intros Hr He. now rewrite (handle_connection_request e c request Hr), He.
Qed.

(** The handling of a request, in every case. *)
Lemma handle_connection_exact (e : env) (c : connection) (request : str) :
  read_request (incoming c) [] = Returns (Ok request) ->
  handle_connection e c =
    Finished (match echo e request with
              | Raise x => [Traceback x]
              | Ok _ =>
                  match build_response e request with
                  | Raise x => [Traceback x]
                  | Ok d => delivery c d
                  end
              end ++ [Closed]).
Proof.
  intros Hr. rewrite (handle_connection_request e c request Hr).
  destruct (echo e request) as [[]|x]; cbn [bind]; [|reflexivity].
  now destruct (build_response e request).
Qed.

(** The echo of line 144 is inside the [try] of line 133.  On a standard
    output that has forms for ASCII only, a request for /caf\u00e9 ends
    with the traceback of the print and the close: the request is never
    parsed and nothing is written.  Where the print succeeds, the same
    request gets the 404 response. *)
Lemma handle_connection_echo_raises :
  handle_connection Demo.ascii_site
    {| incoming := [Data (b "GET /caf" ++ [xc3; xa9] ++ b (" HTTP/1.1" ++ CRLF ++ CRLF))];
       sending := SendsAll |}
  = Finished [Traceback UnicodeEncodeError; Closed]
  /\ handle_connection Demo.site
       {| incoming := [Data (b "GET /caf" ++ [xc3; xa9] ++ b (" HTTP/1.1" ++ CRLF ++ CRLF))];
          sending := SendsAll |}
     = Finished [Sent response_not_found; Closed].
Proof. split; reflexivity. Qed.

(** Once the read loop has ended, what the peer would send later does not
    matter. *)
Lemma read_request_prefix (rs more : list recv_result) (request : str) (r : result str) :
  read_request rs request = Returns r ->
  read_request (rs ++ more) request = Returns r.
Proof.
  revert request; induction rs as [|[d|] rs IH]; intros request;
    cbn [read_request app].
  - discriminate.
  - destruct (decode d) as [t|x]; [|auto].
    destruct (contains (u (CRLF ++ CRLF)) (request ++ t)); [auto | apply IH].
  - auto.
Qed.

Lemma contains_app (p x y : str) :
  contains p x = true -> contains p (x ++ y) = true.
Proof.
  rewrite !contains_occurs. intros (before & after & ->).
  exists before, (after ++ y). now rewrite <- !app_assoc.
Qed.

Lemma delivers_cons (r : recv_result) (rs : list recv_result) (texts : list str) :
  Forall2 delivers (r :: rs) texts ->
  exists d t texts',
    r = Data d /\ decode d = Ok t /\ texts = t :: texts' /\ Forall2 delivers rs texts'.
Proof.
  intros H. inversion H as [|r' t rs' texts' (d & Hr & Hd) HF]; subst.
  now exists d, t, texts'.
Qed.

(** The read loop never ends exactly when every [recv] delivers text and
    all the text delivered holds no header terminator. *)
Lemma read_request_never_iff (rs : list recv_result) (request : str) :
  contains (u (CRLF ++ CRLF)) request = false ->
  (read_request rs request = Never <->
   exists texts, Forall2 delivers rs texts
                 /\ contains (u (CRLF ++ CRLF)) (request ++ List.concat texts) = false).
Proof.
  revert request; induction rs as [|[d|] rs IH]; intros request Hreq;
    cbn [read_request].
  - split; [intros _ | reflexivity].
    exists []. split; [constructor | now rewrite app_nil_r].
  - destruct (decode d) as [t|x] eqn:Ed.
    + destruct (contains (u (CRLF ++ CRLF)) (request ++ t)) eqn:Ec.
      * split; [discriminate|].
        intros (texts & HF & Hc).
        destruct (delivers_cons _ _ _ HF) as (d' & t' & texts' & [= <-] & Hd & -> & _).
        rewrite Ed in Hd. injection Hd as <-.
        cbn [List.concat] in Hc. rewrite app_assoc in Hc.
        now rewrite (contains_app _ _ _ Ec) in Hc.
      * rewrite (IH _ Ec). split.
        -- intros (texts & HF & Hc). exists (t :: texts). split.
           ++ constructor; [now exists d | exact HF].
           ++ cbn [List.concat]. now rewrite app_assoc.
        -- intros (texts & HF & Hc).
           destruct (delivers_cons _ _ _ HF) as (d' & t' & texts' & [= <-] & Hd & -> & HF').
           rewrite Ed in Hd. injection Hd as <-.
           exists texts'. split; [exact HF'|].
           cbn [List.concat] in Hc. now rewrite app_assoc in Hc.
    + split; [discriminate|].
      intros (texts & HF & _).
      destruct (delivers_cons _ _ _ HF) as (d' & t' & texts' & [= <-] & Hd & _).
      rewrite Ed in Hd. discriminate Hd.
  - split; [discriminate|].
    intros (texts & HF & _).
    destruct (delivers_cons _ _ _ HF) as (d' & t' & texts' & Hr & _).
    discriminate Hr.
Qed.

(** The read loop ends as soon as the text holds the header terminator. *)
Lemma read_request_complete (d : bytes) (rs : list recv_result) (request t : str) :
  decode d = Ok t ->
  occurs_in (u (CRLF ++ CRLF)) (request ++ t) ->
  read_request (Data d :: rs) request = Returns (Ok (request ++ t)).
Proof.
  intros Hd Ho. apply contains_occurs in Ho. cbn [read_request]. now rewrite Hd, Ho.
Qed.

(** C2: [parse_request] raises the unsupported-method error exactly when
    GET occurs nowhere in the request text.  The test is a substring test:
    a POST request whose path contains GET is parsed.  For a request
    without GET the handler builds the 405 response, which begins with
    "HTTP/1.1 405 Method Not Allowed": once the request has been echoed
    on standard output that response is handed to [sendall] and the
    connection is closed, so nothing but the 405 response, or its first
    bytes when [sendall] raises, is ever written for such a request; an
    echo that raises ends the handling with a traceback and no response. *)
Theorem parse_request_unsupported_method (e : env) (request : str) :
  (parse_request request = Raise NotImplementedError <-> ~ occurs_in (u "GET") request)
  /\ (~ occurs_in (u "GET") request ->
        build_response e request = Ok response_method_not_allowed
        /\ begins_with (b "HTTP/1.1 405 Method Not Allowed") response_method_not_allowed
        /\ forall c : connection,
            read_request (incoming c) [] = Returns (Ok request) ->
            handle_connection e c =
              Finished (match echo e request with
                        | Ok _ => delivery c response_method_not_allowed
                        | Raise x => [Traceback x]
                        end ++ [Closed])
            /\ (echo e request = Ok tt -> sending c = SendsAll ->
                handle_connection e c = Finished [Sent response_method_not_allowed; Closed])
            /\ (forall d, In (Sent d) (events_of (handle_connection e c)) ->
                          d = response_method_not_allowed))
  /\ parse_request (u ("POST /GET HTTP/1.1" ++ CRLF ++ CRLF)) = Ok (u "/GET").
Proof.
  assert (Hiff : parse_request request = Raise NotImplementedError
                 <-> ~ occurs_in (u "GET") request).
  { rewrite <- contains_occurs.
    destruct (parse_request_cases request) as [[Hc Hp]|[Hc Hp]]; rewrite Hp, Hc.
    - split; [discriminate | reflexivity].
    - split; [|intros H; now contradiction H].
      intros H. apply index_raises in H as [H _]. discriminate H. }
  split; [exact Hiff|]. split; [|reflexivity].
  intros Hno. apply Hiff in Hno.
  assert (Hb : build_response e request = Ok response_method_not_allowed).
  { unfold build_response. now rewrite Hno. }
  split; [exact Hb|]. split; [exact response_method_not_allowed_status|].
  intros c Hr.
  assert (Hx : handle_connection e c =
               Finished (match echo e request with
                         | Ok _ => delivery c response_method_not_allowed
                         | Raise x => [Traceback x]
                         end ++ [Closed])).
  { rewrite (handle_connection_exact e c request Hr), Hb. reflexivity. }
  split; [exact Hx|]. split.
  - intros He Hs. rewrite Hx, He, delivery_cases, Hs. reflexivity.
  - intros d. rewrite Hx. cbn [events_of].
    destruct (echo e request) as [[]|x].
    + rewrite delivery_cases. destruct (sending c) as [|n].
      * intros [[= <-]|[H|[]]]; [reflexivity | discriminate H].
      * intros H. apply in_app_or in H as [H|H].
        -- apply in_app_or in H as [H|[H|[]]]; [|discriminate H].
           unfold part_events in H. destruct (part n response_method_not_allowed);
             [contradiction | destruct H as [H|[]]; discriminate H].
        -- destruct H as [H|[]]; discriminate H.
    + intros [H|[H|[]]]; discriminate H.
Qed.

Lemma parse_request_unsupported_method_witness :
  ~ occurs_in (u "GET") (u ("POST /index.html HTTP/1.1" ++ CRLF ++ CRLF))
  /\ parse_request (u ("POST /index.html HTTP/1.1" ++ CRLF ++ CRLF)) = Raise NotImplementedError
  /\ handle_connection Demo.site (Demo.client ("POST /index.html HTTP/1.1" ++ CRLF ++ CRLF))
     = Finished [Sent response_method_not_allowed; Closed].
Proof.
  pose proof (parse_request_unsupported_method Demo.site
                (u ("POST /index.html HTTP/1.1" ++ CRLF ++ CRLF))) as (Hiff & Hh & _).
  assert (Hno : ~ occurs_in (u "GET") (u ("POST /index.html HTTP/1.1" ++ CRLF ++ CRLF))).
  { apply Hiff. reflexivity. }
  split; [exact Hno|]. split; [now apply Hiff|].
  destruct (Hh Hno) as (_ & _ & Hc).
  destruct (Hc (Demo.client ("POST /index.html HTTP/1.1" ++ CRLF ++ CRLF)) eq_refl)
    as (_ & Hsent & _).
  apply Hsent; reflexivity.
Defined.

(** C10: a request that contains GET but has fewer than two white-space
    delimited tokens makes [parse_request] raise IndexError, which neither
    [except] clause of the handler catches: the failure is reported, no
    response is written and the connection is closed.  The traceback is
    that of the IndexError, unless the echo of the request had already
    raised. *)
Theorem parse_request_index_error (e : env) (request : str) :
  contains (u "GET") request = true ->
  (List.length (split request) < 2)%nat ->
  parse_request request = Raise IndexError
  /\ build_response e request = Raise IndexError
  /\ forall c : connection,
      read_request (incoming c) [] = Returns (Ok request) ->
      handle_connection e c
      = Finished [Traceback (match echo e request with
                             | Ok _ => IndexError
                             | Raise x => x
                             end);
                  Closed]
      /\ responses (events_of (handle_connection e c)) = []
      /\ written (events_of (handle_connection e c)) = [].
Proof.
  intros Hget Hlen.
  assert (Hp : parse_request request = Raise IndexError).
  { unfold parse_request, index. rewrite Hget. cbn [negb].
    destruct (nth_error (split request) 1) eqn:E; [|reflexivity].
    assert (nth_error (split request) 1 <> None) as Hn by congruence.
    apply nth_error_Some in Hn. lia. }
  assert (Hb : build_response e request = Raise IndexError).
  { unfold build_response. now rewrite Hp. }
  split; [exact Hp|]. split; [exact Hb|].
  intros c Hr.
  rewrite (handle_connection_exact e c request Hr), Hb.
  now destruct (echo e request) as [[]|x].
Qed.

Lemma parse_request_index_error_witness :
  contains (u "GET") (u ("GET" ++ CRLF ++ CRLF)) = true
  /\ (List.length (split (u ("GET" ++ CRLF ++ CRLF))) < 2)%nat
  /\ parse_request (u ("GET" ++ CRLF ++ CRLF)) = Raise IndexError
  /\ handle_connection Demo.site (Demo.client ("GET" ++ CRLF ++ CRLF))
     = Finished [Traceback IndexError; Closed].
Proof.
  assert (Hlen : (List.length (split (u ("GET" ++ CRLF ++ CRLF))) < 2)%nat).
  { vm_compute. lia. }
  destruct (parse_request_index_error Demo.site (u ("GET" ++ CRLF ++ CRLF)) eq_refl Hlen)
    as (Hp & _ & Hc).
  split; [reflexivity|]. split; [exact Hlen|]. split; [exact Hp|].
  apply (Hc (Demo.client ("GET" ++ CRLF ++ CRLF))). reflexivity.
Defined.

(* ================================================================== *)
(** * [response_path] *)

(** The three branches of [response_path], by what the path names. *)
Lemma response_path_missing (e : env) (path : str) :
  stat e (webroot_path e path) = None ->
  response_path e path = Raise NameError.
Proof.
  intros H. unfold response_path, os_path_exists. now rewrite H.
Qed.

Lemma response_path_file (e : env) (path : str) (data : option bytes) :
  stat e (webroot_path e path) = Some (File data) ->
  response_path e path =
    match guess_mime_type e (webroot_path e path), data with
    | Ok mime_type, Some content => Ok (content, mime_type)
    | _, _ => Raise NameError
    end.
Proof.
  intros H. unfold response_path, os_path_exists, os_path_isfile, read_file.
  rewrite H. cbn [negb].
  destruct (guess_mime_type e (webroot_path e path)); [|reflexivity].
  now destruct data.
Qed.

Lemma response_path_other (e : env) (path : str) (x : node) :
  stat e (webroot_path e path) = Some x ->
  (forall data, x <> File data) ->
  response_path e path =
    (names <- os_listdir e (webroot_path e path) ;;
     content <- encode (join (u CRLF) names) ;;
     Ok (content, b "text/plain")).
Proof.
  intros H Hx. unfold response_path, os_path_exists, os_path_isfile.
  rewrite H. cbn [negb].
  destruct x; [now contradiction (Hx data) | reflexivity | reflexivity].
Qed.

(** C3: [response_path] raises the not-found error exactly when the path
    names nothing, or names a regular file for which line 107 yields no
    MIME type or whose content cannot be read; both failures inside the
    [try] become the same NameError, and the handler answers a NameError
    with the 404 response. *)
Theorem response_path_not_found (e : env) (path : str) :
  (response_path e path = Raise NameError <->
     stat e (webroot_path e path) = None
     \/ exists data, stat e (webroot_path e path) = Some (File data)
                     /\ (is_ok (guess_mime_type e (webroot_path e path)) = false
                         \/ data = None))
  /\ (forall data, stat e (webroot_path e path) = Some (File data) ->
        (data = None <-> is_ok (read_file e (webroot_path e path)) = false))
  /\ (response_path e path = Raise NameError ->
      forall request, parse_request request = Ok path ->
                      build_response e request = Ok response_not_found).
Proof.
  split; [|split].
  - destruct (stat e (webroot_path e path)) as [x|] eqn:E.
    + destruct x as [data| listable children |].
      * rewrite (response_path_file e path data E).
        split.
        -- intros H. right. exists data. split; [reflexivity|].
           destruct (guess_mime_type e (webroot_path e path)); [|now left].
           destruct data; [discriminate H | now right].
        -- intros [H|(data' & [= <-] & [H| ->])]; [discriminate H | |].
           ++ now destruct (guess_mime_type e (webroot_path e path)).
           ++ now destruct (guess_mime_type e (webroot_path e path)).
      * rewrite (response_path_other e path _ E) by discriminate.
        unfold os_listdir. rewrite E.
        split.
        -- destruct listable; cbn [bind]; [|discriminate].
           destruct (encode _) as [d|x] eqn:Ee; cbn [bind]; [discriminate|].
           unfold encode in Ee. destruct (utf8_encode _); [discriminate|].
           injection Ee as <-. discriminate.
        -- intros [H|(data & H & _)]; discriminate H.
      * rewrite (response_path_other e path _ E) by discriminate.
        unfold os_listdir. rewrite E. cbn [bind].
        split; [discriminate|].
        intros [H|(data & H & _)]; discriminate H.
    + rewrite (response_path_missing e path E).
      split; [now left | reflexivity].
  - intros data E. unfold read_file. rewrite E.
    destruct data; split; intros H; try reflexivity; discriminate H.
  - intros H request Hp. unfold build_response. now rewrite Hp; cbn [bind]; rewrite H.
Qed.

Lemma response_path_not_found_witness :
  response_path Demo.site (u "/nothing.html") = Raise NameError
  /\ response_path Demo.site (u "/notes") = Raise NameError
  /\ response_path Demo.site (u "/locked.txt") = Raise NameError
  /\ build_response Demo.site (u ("GET /locked.txt HTTP/1.1" ++ CRLF ++ CRLF))
     = Ok response_not_found.
Proof.
  destruct (response_path_not_found Demo.site (u "/nothing.html")) as (H1 & _ & _).
  destruct (response_path_not_found Demo.site (u "/notes")) as (H2 & _ & _).
  destruct (response_path_not_found Demo.site (u "/locked.txt")) as (H3 & _ & H4).
  assert (E3 : response_path Demo.site (u "/locked.txt") = Raise NameError).
  { apply H3. right. exists None. split; [reflexivity | now right]. }
  split; [|split; [|split]].
  - apply H1. now left.
  - apply H2. right. exists (Some (b "no extension")). split; [reflexivity | now left].
  - exact E3.
  - apply (H4 E3). reflexivity.
Defined.

(** C6: [response_not_found()] is the fixed 404 response, and it is what
    the handler answers to every request whose parsed path does not exist
    under the document root: once the request has been echoed on standard
    output that response is handed to [sendall] and the connection is
    closed, so nothing but the 404 response, or its first bytes when
    [sendall] raises, is ever written for such a request; an echo that
    raises ends the handling with a traceback and no response. *)
Theorem response_not_found_for_missing_path (e : env) :
  response_not_found
    = b ("HTTP/1.1 404 Not Found" ++ CRLF ++ "Content-Type: text/plain" ++ CRLF
         ++ CRLF ++ "Error encountered while visiting")
  /\ forall request path : str,
      parse_request request = Ok path ->
      os_path_exists e (webroot_path e path) = false ->
      build_response e request = Ok response_not_found
      /\ forall c : connection,
          read_request (incoming c) [] = Returns (Ok request) ->
          handle_connection e c =
            Finished (match echo e request with
                      | Ok _ => delivery c response_not_found
                      | Raise x => [Traceback x]
                      end ++ [Closed])
          /\ (echo e request = Ok tt -> sending c = SendsAll ->
              handle_connection e c = Finished [Sent response_not_found; Closed])
          /\ (forall d, In (Sent d) (events_of (handle_connection e c)) ->
                        d = response_not_found).
Proof.
  split; [reflexivity|].
  intros request path Hp Hex.
  assert (Hb : build_response e request = Ok response_not_found).
  { unfold build_response, response_path. now rewrite Hp; cbn [bind]; rewrite Hex. }
  split; [exact Hb|].
  intros c Hr.
  assert (Hx : handle_connection e c =
               Finished (match echo e request with
                         | Ok _ => delivery c response_not_found
                         | Raise x => [Traceback x]
                         end ++ [Closed])).
  { rewrite (handle_connection_exact e c request Hr), Hb. reflexivity. }
  split; [exact Hx|]. split.
  - intros He Hs. rewrite Hx, He, delivery_cases, Hs. reflexivity.
  - intros d. rewrite Hx. cbn [events_of].
    destruct (echo e request) as [[]|x].
    + rewrite delivery_cases. destruct (sending c) as [|n].
      * intros [[= <-]|[H|[]]]; [reflexivity | discriminate H].
      * intros H. apply in_app_or in H as [H|H].
        -- apply in_app_or in H as [H|[H|[]]]; [|discriminate H].
           unfold part_events in H. destruct (part n response_not_found);
             [contradiction | destruct H as [H|[]]; discriminate H].
        -- destruct H as [H|[]]; discriminate H.
    + intros [H|[H|[]]]; discriminate H.
Qed.

Lemma response_not_found_for_missing_path_witness :
  parse_request (u ("GET /missing.txt HTTP/1.1" ++ CRLF ++ CRLF)) = Ok (u "/missing.txt")
  /\ os_path_exists Demo.site (webroot_path Demo.site (u "/missing.txt")) = false
  /\ handle_connection Demo.site (Demo.client ("GET /missing.txt HTTP/1.1" ++ CRLF ++ CRLF))
     = Finished [Sent response_not_found; Closed].
Proof.
  split; [reflexivity|]. split; [reflexivity|].
  destruct (proj2 (response_not_found_for_missing_path Demo.site)
              (u ("GET /missing.txt HTTP/1.1" ++ CRLF ++ CRLF)) (u "/missing.txt")
              eq_refl eq_refl) as [_ Hc].
  destruct (Hc (Demo.client ("GET /missing.txt HTTP/1.1" ++ CRLF ++ CRLF)) eq_refl)
    as (_ & Hsent & _).
  apply Hsent; reflexivity.
Defined.

(** ** Directory listings *)

Lemma utf8_char_scalar (c : char) :
  scalar c -> exists d, utf8_char c = Some d.
Proof.
  intros [Hmax Hsur]. unfold utf8_char. rewrite Hsur.
  destruct (c <? 0x80); [eauto|].
  destruct (c <? 0x800); [eauto|].
  destruct (c <? 0x10000); [eauto|].
  apply N.leb_le in Hmax. rewrite Hmax. eauto.
Qed.

Lemma utf8_encode_scalar (x : str) :
  Forall scalar x -> exists d, utf8_encode x = Some d.
Proof.
  induction 1 as [|c x Hc _ [d IH]]; simpl; [eauto|].
  destruct (utf8_char_scalar c Hc) as [h ->]. rewrite IH. eauto.
Qed.

Lemma join_Forall {A} (P : A -> Prop) (sep : list A) (l : list (list A)) :
  Forall P sep -> Forall (Forall P) l -> Forall P (join sep l).
Proof.
  intros Hsep; induction 1 as [|x l Hx Hl IH]; [constructor|].
  cbn [join]. destruct l; [exact Hx|].
  apply Forall_app; split; [exact Hx|].
  apply Forall_app; split; [exact Hsep | exact IH].
Qed.

(** A listing whose names hold no lone surrogate can be encoded. *)
Lemma listing_encodes (names : list str) :
  Forall (Forall scalar) names ->
  exists content, encode (join (u CRLF) names) = Ok content.
Proof.
  intros H. unfold encode.
  destruct (utf8_encode_scalar (join (u CRLF) names)) as [d ->]; [|eauto].
  apply join_Forall; [|exact H].
  repeat constructor; vm_compute; congruence.
Qed.

(** What [response_path] does with a directory, in every case. *)
Lemma response_path_dir (e : env) (path : str) (listable : bool)
      (children : list (str * node)) :
  stat e (webroot_path e path) = Some (Dir listable children) ->
  response_path e path =
    if listable
    then content <- encode (join (u CRLF) (List.map fst children)) ;;
         Ok (content, b "text/plain")
    else Raise OSError.
Proof.
  intros E. rewrite (response_path_other e path _ E) by discriminate.
  unfold os_listdir. rewrite E. now destruct listable.
Qed.

(** A directory that cannot be enumerated, or one that holds a name with
    no UTF-8 form, makes [response_path] raise what [os.listdir] or
    [encode] raises. *)
Lemma response_path_directory_failures :
  response_path Demo.site (u "/private") = Raise OSError
  /\ response_path Demo.site (u "/odd") = Raise UnicodeEncodeError
  /\ response_path Demo.site (u "/pipe") = Raise OSError.
Proof. repeat split; reflexivity. Qed.

(** C5, as stated, is false: a directory that exists need not be
    enumerable.  /srv/webroot/private exists and is a directory, but
    listing it is denied, and [response_path] raises the OSError of
    [os.listdir] instead of returning a listing. *)
Lemma response_path_directory_counterexample :
  ~ (forall (e : env) (path : str) (listable : bool) (children : list (str * node)),
        stat e (webroot_path e path) = Some (Dir listable children) ->
        exists content,
          encode (join (u CRLF) (List.map fst children)) = Ok content
          /\ response_path e path = Ok (content, b "text/plain")).
Proof.
  intros H.
  destruct (H Demo.site (u "/private") false
              [(u "diary.txt", File (Some (b "dear diary")))] eq_refl)
    as (content & _ & Hr).
  vm_compute in Hr. discriminate Hr.
Qed.

(** C5, amended: for every existing path that resolves to a directory
    whose entries can be enumerated and whose names have a UTF-8 form,
    [response_path] returns the entry names, in enumeration order, joined
    by CRLF and encoded, with the MIME type [text/plain]; names without
    lone surrogates always have a UTF-8 form, and for an empty directory
    the content is the empty byte string. *)
Theorem response_path_directory (e : env) (path : str) (children : list (str * node)) :
  stat e (webroot_path e path) = Some (Dir true children) ->
  (forall content : bytes,
      encode (join (u CRLF) (List.map fst children)) = Ok content ->
      response_path e path = Ok (content, b "text/plain")
      /\ decode content = Ok (join (u CRLF) (List.map fst children)))
  /\ (Forall (Forall scalar) (List.map fst children) ->
      exists content : bytes,
        encode (join (u CRLF) (List.map fst children)) = Ok content
        /\ response_path e path = Ok (content, b "text/plain"))
  /\ (children = [] -> response_path e path = Ok ([], b "text/plain")).
Proof.
  intros E. rewrite (response_path_dir e path true children E).
  split; [|split].
  - intros content Hc. rewrite Hc. split; [reflexivity|].
    unfold encode in Hc. unfold decode.
    destruct (utf8_encode (join (u CRLF) (List.map fst children))) as [d|] eqn:Ed;
      [|discriminate].
    injection Hc as ->. now rewrite (utf8_decode_encode _ _ Ed).
  - intros Hs. destruct (listing_encodes _ Hs) as [content Hc].
    exists content. now rewrite Hc.
  - intros ->. reflexivity.
Qed.

Lemma response_path_directory_witness :
  stat Demo.site (webroot_path Demo.site (u "/images"))
    = Some (Dir true [ (u "b.png", File (Some (b "PNG"))); (u "a.png", File (Some (b "PNG"))) ])
  /\ response_path Demo.site (u "/images") = Ok (b ("b.png" ++ CRLF ++ "a.png"), b "text/plain")
  /\ response_path Demo.site (u "/empty") = Ok ([], b "text/plain").
Proof.
  split; [reflexivity|]. split.
  - apply (proj1 (response_path_directory Demo.site (u "/images")
                    [ (u "b.png", File (Some (b "PNG"))); (u "a.png", File (Some (b "PNG"))) ]
                    eq_refl)).
    reflexivity.
  - apply (proj2 (proj2 (response_path_directory Demo.site (u "/empty") [] eq_refl))).
    reflexivity.
Defined.

(* ================================================================== *)
(** * Path resolution *)

Section Paths.

Variable e : env.

Lemma split_sep_nonempty (sep : char) (x : str) : split_sep sep x <> [].
Proof.
  destruct x as [|c x]; simpl; [discriminate|].
  destruct (c =? sep); [discriminate|].
  destruct (split_sep sep x); discriminate.
Qed.

(** Cutting a path at a separator cuts its list of components. *)
Lemma split_sep_cut (sep : char) (x y : str) :
  split_sep sep (x ++ sep :: y) = split_sep sep x ++ split_sep sep y.
Proof.
  induction x as [|c x IH]; simpl.
  - now rewrite N.eqb_refl.
  - destruct (c =? sep); [now rewrite IH|].
    rewrite IH.
    destruct (split_sep sep x) as [|h t] eqn:E; [|reflexivity].
    now contradiction (split_sep_nonempty sep x).
Qed.

Lemma walk_app (st : list node) (cs cs' : list str) :
  walk st (cs ++ cs') =
    match walk st cs with
    | Some st' => walk st' cs'
    | None => None
    end.
Proof.
  revert st; induction cs as [|c cs IH]; intros st; simpl; [reflexivity|].
  destruct (step st c); [apply IH | reflexivity].
Qed.

Lemma endswith_sep (a : str) :
  endswith [SEP] a = true -> exists base, a = base ++ [SEP].
Proof.
  unfold endswith. intros H.
  destruct (startswith_inv _ _ H) as [r Hr].
  exists (rev r). rewrite <- (rev_involutive a), Hr. reflexivity.
Qed.

(** The looked-up location: the working directory, a separator unless the
    working directory ends with one, and ['webroot' + path] as it is. *)
Lemma webroot_path_shape (path : str) :
  (cwd e = [] /\ webroot_path e path = u "webroot" ++ path)
  \/ exists base, (cwd e = base \/ cwd e = base ++ [SEP])
                  /\ webroot_path e path = base ++ SEP :: u "webroot" ++ path.
Proof.
  unfold webroot_path, os_path_join.
  change (startswith [SEP] (u "webroot" ++ path)) with false. cbv iota.
  destruct (cwd e) as [|c a] eqn:Ec; [now left|].
  right. destruct (endswith [SEP] (c :: a)) eqn:Ee.
  - destruct (endswith_sep _ Ee) as [base Hb].
    exists base. split; [now right|]. rewrite Hb, <- app_assoc. reflexivity.
  - exists (c :: a). split; [now left | reflexivity].
Qed.

Lemma webroot_path_app (path : str) :
  webroot_path e path = webroot_path e [] ++ path.
Proof.
  unfold webroot_path, os_path_join.
  change (startswith [SEP] (u "webroot" ++ path)) with false.
  change (startswith [SEP] (u "webroot" ++ [])) with false. cbv iota.
  rewrite app_nil_r.
  destruct (match cwd e with [] => true | _ :: _ => endswith [SEP] (cwd e) end);
    now rewrite <- !app_assoc.
Qed.

Lemma startswith_sep_app (p q q' : str) :
  startswith [SEP] (p ++ SEP :: q) = startswith [SEP] (p ++ SEP :: q').
Proof. destruct p; simpl; now rewrite ?andb_true_r. Qed.

(** [stat] of a path cut at a separator walks the components of both
    parts. *)
Lemma stat_cut (p q : str) :
  stat e (p ++ SEP :: q) =
    if startswith [SEP] (p ++ SEP :: q) then
      match walk [root e] (split_sep SEP p ++ split_sep SEP q) with
      | Some (x :: _) => Some x
      | _ => None
      end
    else None.
Proof. unfold stat. now rewrite split_sep_cut. Qed.

(** Entering a directory by name and leaving it by ".." comes back. *)
Lemma step_down_up (st st' : list node) (l : bool) (ch : list (str * node)) :
  step st (u "webroot") = Some (Dir l ch :: st') ->
  st' = st /\ step (Dir l ch :: st') (u "..") = Some st /\ step st [] = Some st.
Proof.
  destruct st as [|[data|l0 ch0|] up]; simpl; try discriminate.
  destruct (lookup (u "webroot") ch0); [|discriminate].
  intros [= -> <-]. now repeat split.
Qed.

(** With the document root in place, the request path "/../rest" names
    what "rest" names from the working directory: the parent of the
    document root, not the document root. *)
Lemma stat_dotdot (l : bool) (ch : list (str * node)) (rest : str) :
  stat e (webroot_path e []) = Some (Dir l ch) ->
  stat e (webroot_path e (u "/../" ++ rest)) = stat e (cwd e ++ [SEP] ++ rest).
Proof.
  intros Hroot.
  rewrite (webroot_path_app (u "/../" ++ rest)).
  destruct (webroot_path_shape []) as [[E H]|(base & Hb & H)].
  - rewrite H in Hroot. discriminate Hroot.
  - rewrite app_nil_r in H. rewrite H in Hroot |- *.
    rewrite stat_cut in Hroot.
    destruct (startswith [SEP] (base ++ SEP :: u "webroot")) eqn:Habs; [|discriminate].
    rewrite walk_app in Hroot.
    destruct (walk [root e] (split_sep SEP base)) as [st|] eqn:Ew; [|discriminate].
    change (split_sep SEP (u "webroot")) with [u "webroot"] in Hroot.
    cbn [walk] in Hroot.
    destruct (step st (u "webroot")) as [[|x st']|] eqn:Es; try discriminate.
    injection Hroot as ->.
    destruct (step_down_up _ _ _ _ Es) as (-> & Hup & Hstay).
    (* the path with ".." *)
    change ((base ++ SEP :: u "webroot") ++ u "/../" ++ rest)
      with ((base ++ SEP :: u "webroot") ++ SEP :: (u ".." ++ SEP :: rest)).
    rewrite <- app_assoc, <- app_comm_cons.
    rewrite stat_cut, (startswith_sep_app base _ (u "webroot")), Habs.
    rewrite !split_sep_cut, !walk_app, Ew.
    change (split_sep SEP (u "webroot")) with [u "webroot"].
    change (split_sep SEP (u "..")) with [u ".."].
    cbn [walk app]. rewrite Es, Hup.
    (* the path from the working directory *)
    destruct Hb as [-> | ->].
    + change (base ++ [SEP] ++ rest) with (base ++ SEP :: rest).
      now rewrite stat_cut, (startswith_sep_app base _ (u "webroot")), Habs, walk_app, Ew.
    + replace ((base ++ [SEP]) ++ SEP :: rest) with (base ++ SEP :: ([] ++ SEP :: rest))
        by now rewrite <- app_assoc.
      rewrite (stat_cut base ([] ++ SEP :: rest)).
      rewrite (startswith_sep_app base _ (u "webroot")), Habs.
      rewrite split_sep_cut, !walk_app, Ew.
      change (split_sep SEP []) with [@nil char].
      cbn [walk app]. now rewrite Hstay.
Qed.

End Paths.

(** [response_path] reads the environment only at the looked-up location. *)
Lemma response_path_reads_location (e e' : env) (path : str) :
  cwd e' = cwd e ->
  guess_type e' (webroot_path e path) = guess_type e (webroot_path e path) ->
  stat e' (webroot_path e path) = stat e (webroot_path e path) ->
  response_path e' path = response_path e path.
Proof.
  intros Hcwd Hguess Hstat.
  assert (Hw : webroot_path e' path = webroot_path e path).
  { unfold webroot_path. now rewrite Hcwd. }
  unfold response_path, os_path_exists, os_path_isfile, read_file, os_listdir,
    guess_mime_type.
  now rewrite Hw, Hguess, Hstat.
Qed.

(** What [response_path] gives, read off the location it looks up. *)
Lemma response_path_at_location (e : env) (path : str) :
  response_path e path =
    match stat e (webroot_path e path) with
    | None => Raise NameError
    | Some (File data) =>
        match guess_mime_type e (webroot_path e path), data with
        | Ok mime_type, Some content => Ok (content, mime_type)
        | _, _ => Raise NameError
        end
    | Some (Dir true children) =>
        content <- encode (join (u CRLF) (List.map fst children)) ;;
        Ok (content, b "text/plain")
    | Some (Dir false _) => Raise OSError
    | Some Other => Raise OSError
    end.
Proof.
  destruct (stat e (webroot_path e path)) as [[data|listable children|]|] eqn:E.
  - exact (response_path_file e path data E).
  - rewrite (response_path_dir e path listable children E). now destruct listable.
  - rewrite (response_path_other e path _ E) by discriminate.
    unfold os_listdir. now rewrite E.
  - exact (response_path_missing e path E).
Qed.

(** C7: the location [response_path] looks up is the join of the working
    directory with ['webroot' + path]: the working directory, a separator
    unless it already ends with one, then "webroot" and the request path
    character for character, ".." segments included.  The result depends
    on the file system through that location only, and it is what is found
    there: nothing gives NameError, a regular file gives its own bytes, a
    directory the names of its own entries.  The kernel resolves "..":
    with the document root in place, the request path "/../rest" names
    what "rest" names from the working directory, outside the document
    root, and a readable file there is served; on the demo site
    "/../secret.txt" serves /srv/secret.txt. *)
Theorem response_path_location (e : env) (path : str) :
  webroot_path e path = os_path_join (cwd e) (u "webroot" ++ path)
  /\ (exists prefix : str,
        (prefix = cwd e \/ prefix = cwd e ++ [SEP])
        /\ webroot_path e path = prefix ++ u "webroot" ++ path)
  /\ (forall e' : env,
        cwd e' = cwd e ->
        guess_type e' (webroot_path e path) = guess_type e (webroot_path e path) ->
        stat e' (webroot_path e path) = stat e (webroot_path e path) ->
        response_path e' path = response_path e path)
  /\ (forall (l : bool) (ch : list (str * node)) (rest : str),
        stat e (webroot_path e []) = Some (Dir l ch) ->
        stat e (webroot_path e (u "/../" ++ rest)) = stat e (cwd e ++ [SEP] ++ rest))
  /\ response_path Demo.site (u "/../secret.txt") = Ok (b "top secret", b "text/plain")
  /\ response_path e path =
       match stat e (os_path_join (cwd e) (u "webroot" ++ path)) with
       | None => Raise NameError
       | Some (File data) =>
           match guess_mime_type e (os_path_join (cwd e) (u "webroot" ++ path)), data with
           | Ok mime_type, Some content => Ok (content, mime_type)
           | _, _ => Raise NameError
           end
       | Some (Dir true children) =>
           content <- encode (join (u CRLF) (List.map fst children)) ;;
           Ok (content, b "text/plain")
       | Some (Dir false _) => Raise OSError
       | Some Other => Raise OSError
       end
  /\ (forall (l : bool) (ch : list (str * node)) (rest : str)
             (content mime_type : bytes),
        stat e (webroot_path e []) = Some (Dir l ch) ->
        stat e (cwd e ++ [SEP] ++ rest) = Some (File (Some content)) ->
        guess_mime_type e (webroot_path e (u "/../" ++ rest)) = Ok mime_type ->
        response_path e (u "/../" ++ rest) = Ok (content, mime_type)).
Proof.
  split; [reflexivity|].
  split; [|split; [|split; [|split; [reflexivity|split]]]].
  - unfold webroot_path, os_path_join.
    change (startswith [SEP] (u "webroot" ++ path)) with false. cbv iota.
    destruct (match cwd e with [] => true | _ :: _ => endswith [SEP] (cwd e) end).
    + exists (cwd e). split; [now left | reflexivity].
    + exists (cwd e ++ [SEP]). split; [now right | now rewrite <- app_assoc].
  - intros e'. apply response_path_reads_location.
  - intros l ch rest. apply stat_dotdot.
  - exact (response_path_at_location e path).
  - intros l ch rest content mime_type Hroot Hfile Hm.
    rewrite (response_path_file e _ (Some content)).
    + now rewrite Hm.
    + now rewrite (stat_dotdot e l ch rest Hroot).
Qed.

Lemma response_path_location_witness :
  webroot_path Demo.site (u "/../secret.txt") = u "/srv/webroot/../secret.txt"
  /\ stat Demo.site (webroot_path Demo.site []) = Some Demo.webroot
  /\ stat Demo.site (webroot_path Demo.site (u "/../secret.txt"))
     = Some (File (Some (b "top secret")))
  /\ stat Demo.site (u "/srv/secret.txt") = Some (File (Some (b "top secret")))
  /\ response_path Demo.site (u "/../" ++ u "secret.txt") = Ok (b "top secret", b "text/plain")
  /\ response_path Demo.site (u "/index.html") = Ok (b "<html></html>", b "text/html").
Proof.
  split; [reflexivity|]. split; [reflexivity|].
  destruct (response_path_location Demo.site (u "/../secret.txt"))
    as (_ & _ & _ & H & _ & _ & H').
  specialize (H true _ (u "secret.txt") eq_refl).
  specialize (H' true _ (u "secret.txt") (b "top secret") (b "text/plain")
                 eq_refl eq_refl eq_refl).
  split; [|split; [reflexivity|split; [exact H'|]]].
  - change (u "/../secret.txt") with (u "/../" ++ u "secret.txt").
    rewrite H. reflexivity.
  - destruct (response_path_location Demo.site (u "/index.html"))
      as (_ & _ & _ & _ & _ & H6 & _).
    rewrite H6. reflexivity.
Defined.

(* ================================================================== *)
(** * The responses of the server *)

(** A response that is built is one of the three builders' values. *)
Lemma build_response_shapes (e : env) (request : str) (d : bytes) :
  build_response e request = Ok d ->
  (exists path content mimetype,
      parse_request request = Ok path
      /\ response_path e path = Ok (content, mimetype)
      /\ d = response_ok content mimetype)
  \/ d = response_not_found
  \/ d = response_method_not_allowed.
Proof.
  unfold build_response.
  destruct (parse_request request) as [path|x] eqn:Ep; cbn [bind].
  - destruct (response_path e path) as [[content mimetype]|x] eqn:Er; cbn [bind fst snd].
    + intros [= <-]. left. now exists path, content, mimetype.
    + destruct x; intros [= <-]; auto.
  - destruct x; intros [= <-]; auto.
Qed.

(** What a [sendall] that raises has written is a beginning of the
    response that leaves some of it out. *)
Lemma part_proper (n : nat) (d : bytes) :
  d <> [] -> exists rest, d = part n d ++ rest /\ rest <> [].
Proof.
  intros Hd. unfold part.
  exists (skipn (Nat.min n (Nat.pred (List.length d))) d).
  split; [now rewrite firstn_skipn|].
  intros H. apply (f_equal (@List.length byte)) in H.
  rewrite length_skipn in H. cbn [List.length] in H.
  destruct d; [congruence | cbn [List.length] in H; lia].
Qed.

Lemma part_events_in (d : bytes) (ev : event) :
  In ev (part_events d) -> ev = SentPart d /\ d <> [].
Proof.
  destruct d; cbn [part_events]; [contradiction|].
  intros [<-|[]]. split; [reflexivity | discriminate].
Qed.

(** The events of one connection: none at all when the read loop never
    ends; otherwise a traceback, or a response handed to [sendall], whole
    or cut short with a traceback, and then the close. *)
Lemma handle_connection_events (e : env) (c : connection) :
  (read_request (incoming c) [] = Never /\ handle_connection e c = Stuck [])
  \/ (read_request (incoming c) [] <> Never
      /\ exists x, handle_connection e c = Finished [Traceback x; Closed])
  \/ (exists request d,
        read_request (incoming c) [] = Returns (Ok request)
        /\ echo e request = Ok tt
        /\ build_response e request = Ok d
        /\ ((sending c = SendsAll
             /\ handle_connection e c = Finished [Sent d; Closed])
            \/ (exists n,
                  sending c = SendFails n
                  /\ handle_connection e c
                     = Finished (part_events (part n d) ++ [Traceback OSError; Closed])))).
Proof.
  destruct (read_request (incoming c) []) as [[request|x]|] eqn:Er.
  - rewrite (handle_connection_exact e c request Er).
    destruct (echo e request) as [[]|x] eqn:Ee.
    + destruct (build_response e request) as [d|x] eqn:Eb.
      * right; right. exists request, d.
        split; [reflexivity|]. split; [exact Ee|]. split; [exact Eb|].
        rewrite delivery_cases. destruct (sending c) as [|n].
        -- left. now split.
        -- right. exists n. split; [reflexivity|]. now rewrite <- app_assoc.
      * right; left. split; [discriminate | now exists x].
    + right; left. split; [discriminate | now exists x].
  - right; left. split; [discriminate|]. exists x.
    unfold handle_connection. now rewrite Er.
  - left. split; [reflexivity|]. unfold handle_connection. now rewrite Er.
Qed.

Lemma server_in (e : env) (conns : list connection) (ev : event) :
  In ev (server e conns) ->
  exists c, In c conns /\ In ev (events_of (handle_connection e c)).
Proof.
  induction conns as [|c rest IH]; simpl; [contradiction|].
  destruct (handle_connection e c) as [l|l] eqn:E.
  - intros H. apply in_app_or in H as [H|H].
    + exists c. rewrite E. auto.
    + destruct (IH H) as (c' & Hin & Hs). exists c'. auto.
  - intros H. exists c. rewrite E. auto.
Qed.

(** Whatever reaches [sendall] is one of the three responses. *)
Lemma handed_to_sendall (e : env) (request : str) (d : bytes) :
  build_response e request = Ok d -> one_of_three e d /\ d <> [].
Proof.
  intros Hb.
  destruct (build_response_shapes e request d Hb)
    as [(path & content & mimetype & _ & Hr & ->)| [-> | ->]].
  - split; [left; now exists path, content, mimetype | discriminate].
  - split; [right; now left | discriminate].
  - split; [right; now right | discriminate].
Qed.

(** C8, as stated, is false: an unexpected failure does not mean that
    nothing was written.  When the client that asked for /index.html goes
    away after ten bytes of the answer, [sendall] raises, the failure is
    reported, and the first ten bytes of the 200 response have been
    written. *)
Lemma server_response_counterexample :
  ~ ((forall (e : env) (conns : list connection) (d : bytes),
         In (Sent d) (server e conns) -> one_of_three e d)
     /\ (forall (e : env) (c : connection),
           failed (events_of (handle_connection e c)) = true ->
           written (events_of (handle_connection e c)) = [])).
Proof.
  intros [_ H].
  specialize (H Demo.site
                (Demo.leaves (b ("GET /index.html HTTP/1.1" ++ CRLF ++ CRLF)) 10) eq_refl).
  vm_compute in H. discriminate H.
Qed.

(** C8, amended: every complete response the server writes to a
    connection is [response_ok(content, mimetype)] for some resolved
    content, the fixed 404 response or the fixed 405 response, so its
    status line is one of those three and no response with any other
    status line is produced.  On an unexpected failure no complete
    response is written: nothing at all is written when the failure comes
    before [sendall], and when [sendall] itself raises, only a beginning
    of one of the three responses has been written. *)
Theorem server_response_shapes (e : env) :
  (forall (conns : list connection) (d : bytes),
      In (Sent d) (server e conns) ->
      ((exists path content mimetype,
           response_path e path = Ok (content, mimetype)
           /\ d = response_ok content mimetype)
       \/ d = response_not_found
       \/ d = response_method_not_allowed)
      /\ (begins_with (b ("HTTP/1.1 200 OK" ++ CRLF)) d
          \/ begins_with (b ("HTTP/1.1 404 Not Found" ++ CRLF)) d
          \/ begins_with (b ("HTTP/1.1 405 Method Not Allowed" ++ CRLF)) d))
  /\ (forall c : connection,
        failed (events_of (handle_connection e c)) = true ->
        responses (events_of (handle_connection e c)) = [])
  /\ (forall (conns : list connection) (d : bytes),
        In (SentPart d) (server e conns) ->
        exists r rest, one_of_three e r /\ r = d ++ rest /\ d <> [] /\ rest <> [])
  /\ (forall c : connection,
        failed (events_of (handle_connection e c)) = true ->
        written (events_of (handle_connection e c)) = []
        \/ exists request r n,
             read_request (incoming c) [] = Returns (Ok request)
             /\ echo e request = Ok tt
             /\ build_response e request = Ok r
             /\ sending c = SendFails n
             /\ events_of (handle_connection e c)
                = [SentPart (part n r); Traceback OSError; Closed]).
Proof.
  split; [|split; [|split]].
  - intros conns d H.
    destruct (server_in e conns _ H) as (c & _ & Hs).
    assert (Hb : exists request, build_response e request = Ok d).
    { destruct (handle_connection_events e c)
        as [[_ E]|[[_ [x E]]|(request & d' & _ & _ & Hb & [[_ E]|(n & _ & E)])]];
        rewrite E in Hs; cbn [events_of] in Hs.
      - contradiction.
      - destruct Hs as [Hs|[Hs|[]]]; discriminate Hs.
      - destruct Hs as [[= <-]|[Hs|[]]]; [eauto | discriminate Hs].
      - apply in_app_or in Hs as [Hs|[Hs|[Hs|[]]]]; try discriminate Hs.
        apply part_events_in in Hs as [Hs _]. discriminate Hs. }
    destruct Hb as [request Hb].
    destruct (build_response_shapes e request d Hb)
      as [(path & content & mimetype & _ & Hr & ->)| [-> | ->]].
    + split; [left; now exists path, content, mimetype|].
      left. eexists. unfold response_ok. cbn [join]. reflexivity.
    + split; [auto|]. right; left. eexists. reflexivity.
    + split; [auto|]. right; right. eexists. reflexivity.
  - intros c.
    destruct (handle_connection_events e c)
      as [[_ E]|[[_ [x E]]|(request & d' & _ & _ & _ & [[_ E]|(n & _ & E)])]];
      rewrite E; cbn [events_of]; try (simpl; congruence).
    intros _. unfold part_events. now destruct (part n d').
  - intros conns d H.
    destruct (server_in e conns _ H) as (c & _ & Hs).
    destruct (handle_connection_events e c)
      as [[_ E]|[[_ [x E]]|(request & r & _ & _ & Hb & [[_ E]|(n & _ & E)])]];
      rewrite E in Hs; cbn [events_of] in Hs.
    + contradiction.
    + destruct Hs as [Hs|[Hs|[]]]; discriminate Hs.
    + destruct Hs as [Hs|[Hs|[]]]; discriminate Hs.
    + apply in_app_or in Hs as [Hs|[Hs|[Hs|[]]]]; try discriminate Hs.
      apply part_events_in in Hs as [[= ->] Hne].
      destruct (handed_to_sendall e request r Hb) as [H3 Hr].
      destruct (part_proper n r Hr) as (rest & Hrest & Hne').
      now exists r, rest.
  - intros c.
    destruct (handle_connection_events e c)
      as [[_ E]|[[_ [x E]]|(request & r & Hr & He & Hb & [[_ E]|(n & Hs & E)])]];
      rewrite E; cbn [events_of]; try (simpl; now (congruence || left)).
    intros _. unfold part_events. destruct (part n r) as [|x0 d0] eqn:Ep.
    + now left.
    + right. exists request, r, n. rewrite Ep. now repeat split.
Qed.

Lemma server_response_shapes_witness :
  In (Sent (response_ok (b "<html></html>") (b "text/html")))
     (server Demo.site
        [ Demo.client ("POST / HTTP/1.1" ++ CRLF ++ CRLF);
          Demo.client ("GET /index.html HTTP/1.1" ++ CRLF ++ CRLF);
          Demo.client ("GET /gone HTTP/1.1" ++ CRLF ++ CRLF) ])
  /\ begins_with (b ("HTTP/1.1 200 OK" ++ CRLF))
       (response_ok (b "<html></html>") (b "text/html")).
Proof.
  assert (H : In (Sent (response_ok (b "<html></html>") (b "text/html")))
                (server Demo.site
                   [ Demo.client ("POST / HTTP/1.1" ++ CRLF ++ CRLF);
                     Demo.client ("GET /index.html HTTP/1.1" ++ CRLF ++ CRLF);
                     Demo.client ("GET /gone HTTP/1.1" ++ CRLF ++ CRLF) ])).
  { vm_compute. right; right; left. reflexivity. }
  split; [exact H|].
  destruct (proj1 (server_response_shapes Demo.site) _ _ H) as [_ [Hs|[Hs|Hs]]].
  - exact Hs.
  - destruct Hs as [rest Hs]. vm_compute in Hs. discriminate Hs.
  - destruct Hs as [rest Hs]. vm_compute in Hs. discriminate Hs.
Defined.

(** C9, as stated, is false: handling need not end.  A client that sends
    the request line and then closes its end never delivers the header
    terminator; the read loop never leaves, nothing is written and the
    connection is never closed. *)
Lemma handle_connection_counterexample :
  ~ (forall (e : env) (c : connection), answered_and_closed (handle_connection e c)).
Proof.
  intros H.
  destruct (H Demo.site Demo.half_request) as (l & Hl & _).
  vm_compute in Hl. discriminate Hl.
Qed.

(** C9, amended: for every accepted connection whose read loop ends (the
    header terminator arrives, or a [recv] or the decoding raises), the
    handler writes at most one response and then closes the connection,
    on every path, unexpected errors included, and writes exactly one
    response before the close unless an unexpected failure is reported.  A
    connection whose read loop never ends gets no response and is never
    closed; that is the case exactly when every [recv] delivers text and
    the text delivered holds no header terminator. *)
Theorem handle_connection_answers_and_closes (e : env) (c : connection) :
  (read_request (incoming c) [] <> Never -> answered_and_closed (handle_connection e c))
  /\ (read_request (incoming c) [] = Never -> handle_connection e c = Stuck [])
  /\ (read_request (incoming c) [] = Never <->
      exists texts, Forall2 delivers (incoming c) texts
                    /\ contains (u (CRLF ++ CRLF)) (List.concat texts) = false).
Proof.
  rewrite <- and_assoc. split; [|now apply (read_request_never_iff (incoming c) [])].
  destruct (handle_connection_events e c)
    as [[Hn E]|[[Hn [x E]]|(request & d & Hr & _ & _ & [[_ E]|(n & _ & E)])]].
  - split; [intros H; now contradiction H | intros _; exact E].
  - split; [intros _ | intros H; now contradiction Hn].
    rewrite E. exists [Traceback x]. simpl.
    repeat split; [intros [H|[]]; discriminate H | lia | discriminate].
  - split; [intros _ | intros H; rewrite H in Hr; discriminate Hr].
    rewrite E. exists [Sent d]. simpl.
    repeat split; [intros [H|[]]; discriminate H | lia].
  - split; [intros _ | intros H; rewrite H in Hr; discriminate Hr].
    rewrite E. exists (part_events (part n d) ++ [Traceback OSError]).
    split; [now rewrite <- app_assoc|].
    unfold part_events. destruct (part n d); simpl;
      (repeat split; [intros H; repeat destruct H as [H|H]; discriminate H || exact H
                     | lia | discriminate]).
Qed.

Lemma handle_connection_answers_and_closes_witness :
  read_request (incoming (Demo.client ("GET / HTTP/1.1" ++ CRLF ++ CRLF))) [] <> Never
  /\ answered_and_closed
       (handle_connection Demo.site (Demo.client ("GET / HTTP/1.1" ++ CRLF ++ CRLF)))
  /\ handle_connection Demo.site Demo.half_request = Stuck [].
Proof.
  assert (H : read_request (incoming (Demo.client ("GET / HTTP/1.1" ++ CRLF ++ CRLF))) []
              <> Never) by (vm_compute; discriminate).
  split; [exact H|]. split.
  - exact (proj1 (handle_connection_answers_and_closes Demo.site _) H).
  - apply (proj2 (handle_connection_answers_and_closes Demo.site Demo.half_request)).
    reflexivity.
Defined.

(* ================================================================== *)
(** * More on [parse_request] *)

(** Every token of [split] is a maximal run of characters that are not
    white space: it is not empty, holds no white space, and stands in the
    text between white space or the ends of the text. *)
Lemma split_from_token (x tok t : str) :
  Forall (fun c => isspace c = false) tok ->
  In t (split_from tok x) ->
  t <> []
  /\ Forall (fun c => isspace c = false) t
  /\ exists before after,
       tok ++ x = before ++ t ++ after
       /\ (before = [] \/ exists b' w, before = b' ++ [w] /\ isspace w = true)
       /\ (after = [] \/ exists w a', after = w :: a' /\ isspace w = true).
Proof.
  revert tok; induction x as [|c x IH]; intros tok Htok; cbn [split_from].
  - destruct tok as [|c0 tok]; cbn [emit]; [contradiction|].
    intros [<-|[]]. split; [discriminate|]. split; [exact Htok|].
    exists [], []. rewrite !app_nil_r. auto.
  - destruct (isspace c) eqn:Ec.
    + assert (Hin : In t (split_from [] x) ->
                    t <> [] /\ Forall (fun c => isspace c = false) t
                    /\ exists before after,
                         tok ++ c :: x = before ++ t ++ after
                         /\ (before = [] \/ exists b' w, before = b' ++ [w] /\ isspace w = true)
                         /\ (after = [] \/ exists w a', after = w :: a' /\ isspace w = true)).
      { intros H. destruct (IH [] (Forall_nil _) H) as (Hne & Hns & before & after & E & Hb & Ha).
        split; [exact Hne|]. split; [exact Hns|].
        exists (tok ++ c :: before), after. split.
        - cbn [app] in E. rewrite E, <- app_assoc. reflexivity.
        - split; [|exact Ha]. right.
          destruct Hb as [->|(b' & w & -> & Hw)].
          + exists tok, c. split; [reflexivity | exact Ec].
          + exists (tok ++ c :: b'), w. split; [|exact Hw].
            now rewrite <- app_assoc. }
      destruct tok as [|c0 tok]; cbn [emit]; [exact Hin|].
      intros [<-|H]; [|exact (Hin H)].
      split; [discriminate|]. split; [exact Htok|].
      exists [], (c :: x). split; [reflexivity|]. split; [now left|].
      right. now exists c, x.
    + intros H.
      destruct (IH (tok ++ [c])) with (2 := H) as (Hne & Hns & before & after & E & Hb & Ha).
      { apply Forall_app. split; [exact Htok | now constructor]. }
      split; [exact Hne|]. split; [exact Hns|].
      exists before, after. split; [|now split].
      rewrite <- E, <- app_assoc. reflexivity.
Qed.

(** X1: the path [parse_request] returns is one white-space delimited
    token of the request: it is never empty, never holds a white-space
    character (so no file whose name has a space, and no CR or LF, can be
    asked for), and it stands in the request between white space or the
    ends of the text. *)
Theorem parse_request_path_is_token (request path : str) :
  parse_request request = Ok path ->
  path <> []
  /\ Forall (fun c => isspace c = false) path
  /\ exists before after,
       request = before ++ path ++ after
       /\ (before = [] \/ exists b' w, before = b' ++ [w] /\ isspace w = true)
       /\ (after = [] \/ exists w a', after = w :: a' /\ isspace w = true).
Proof.
  intros H.
  destruct (parse_request_cases request) as [[_ E]|[_ E]]; rewrite E in H;
    [discriminate|].
  unfold index in H.
  destruct (nth_error (split request) 1) as [t|] eqn:En; [|discriminate].
  injection H as ->.
  apply nth_error_In in En.
  exact (split_from_token request [] path (Forall_nil _) En).
Qed.

Lemma parse_request_path_is_token_witness :
  parse_request (u ("GET /my file.html HTTP/1.1" ++ CRLF ++ CRLF)) = Ok (u "/my")
  /\ u "/my" <> []
  /\ Forall (fun c => isspace c = false) (u "/my").
Proof.
  assert (H : parse_request (u ("GET /my file.html HTTP/1.1" ++ CRLF ++ CRLF)) = Ok (u "/my"))
    by reflexivity.
  destruct (parse_request_path_is_token _ _ H) as (Hne & Hns & _).
  now repeat split.
Defined.

Lemma occurs_in_app_r (p x y : str) : occurs_in p y -> occurs_in p (x ++ y).
Proof.
  intros (before & after & ->). exists (x ++ before), after.
  now rewrite <- app_assoc.
Qed.

Lemma occurs_in_app_l (p x y : str) : occurs_in p x -> occurs_in p (x ++ y).
Proof.
  intros (before & after & ->). exists before, (after ++ y).
  now rewrite <- !app_assoc.
Qed.

(** X2: what follows the second token never changes the path, and GET
    anywhere in it is enough to pass the method test: when [line] has a
    second token [t], and GET occurs in [line] or in the text [rest] that
    follows it after a white-space character, [parse_request] returns [t],
    whatever the first token of [line] is. *)
Theorem parse_request_ignores_rest (line rest t : str) (w : char) :
  isspace w = true ->
  nth_error (split line) 1 = Some t ->
  occurs_in (u "GET") line \/ occurs_in (u "GET") rest ->
  parse_request (line ++ w :: rest) = Ok t.
Proof.
  intros Hw Ht Hget.
  assert (Hc : contains (u "GET") (line ++ w :: rest) = true).
  { apply contains_occurs. destruct Hget as [H|H].
    - now apply occurs_in_app_l.
    - apply occurs_in_app_r. destruct H as (before & after & ->).
      now exists (w :: before), after. }
  unfold parse_request, index. rewrite Hc. cbn [negb].
  rewrite (split_cut line rest w Hw).
  rewrite nth_error_app1; [now rewrite Ht|].
  apply nth_error_Some. congruence.
Qed.

Lemma parse_request_ignores_rest_witness :
  parse_request (u ("POST /index.html HTTP/1.1" ++ CRLF ++ "X-Was: GET" ++ CRLF ++ CRLF))
  = Ok (u "/index.html").
Proof.
  apply (parse_request_ignores_rest (u "POST /index.html HTTP/1.1")
           (u (String "010" ("X-Was: GET" ++ CRLF ++ CRLF))) (u "/index.html") 13).
  - reflexivity.
  - reflexivity.
  - right. apply contains_occurs. reflexivity.
Defined.

(* ================================================================== *)
(** * What [response_path] returns, and what escapes the handler *)

(** X3: [response_path] returns a pair exactly in two cases: the location
    is a readable regular file, the pair being its content and the type of
    line 107; or it is a directory that can be enumerated and whose names
    have a UTF-8 form, the pair being the encoded CRLF-joined listing and
    [text/plain].  The content of a file is returned unchanged. *)
Theorem response_path_returns (e : env) (path : str) (content mime_type : bytes) :
  response_path e path = Ok (content, mime_type) <->
  (stat e (webroot_path e path) = Some (File (Some content))
   /\ guess_mime_type e (webroot_path e path) = Ok mime_type)
  \/ (exists children,
        stat e (webroot_path e path) = Some (Dir true children)
        /\ encode (join (u CRLF) (List.map fst children)) = Ok content
        /\ mime_type = b "text/plain").
Proof.
  destruct (stat e (webroot_path e path)) as [[data|listable children|]|] eqn:E.
  - rewrite (response_path_file e path data E). split.
    + destruct (guess_mime_type e (webroot_path e path)) as [m|]; [|discriminate].
      destruct data as [d|]; [|discriminate].
      intros [= -> ->]. now left.
    + intros [[[= ->] ->]|(children & H & _)]; [reflexivity | discriminate H].
  - rewrite (response_path_dir e path listable children E). split.
    + destruct listable; [|discriminate].
      destruct (encode _) as [d|] eqn:Ee; cbn [bind]; [|discriminate].
      intros [= -> <-]. right. now exists children.
    + intros [[H _]|(ch & [= -> ->] & Hc & ->)]; [discriminate H|].
      now rewrite Hc.
  - rewrite (response_path_other e path _ E) by discriminate.
    unfold os_listdir. rewrite E. cbn [bind]. split; [discriminate|].
    intros [[H _]|(ch & H & _)]; discriminate H.
  - rewrite (response_path_missing e path E). split; [discriminate|].
    intros [[H _]|(ch & H & _)]; discriminate H.
Qed.

Lemma response_ok_concat (body mimetype : bytes) :
  response_ok body mimetype
  = b ("HTTP/1.1 200 OK" ++ CRLF ++ "Content-Type: ") ++ mimetype
      ++ b (CRLF ++ CRLF) ++ body.
Proof.
  unfold response_ok; cbn [join].
  change (b ("HTTP/1.1 200 OK" ++ CRLF ++ "Content-Type: "))
    with (b "HTTP/1.1 200 OK" ++ b CRLF ++ b "Content-Type: ").
  change (b (CRLF ++ CRLF)) with (b CRLF ++ b "" ++ b CRLF).
  now rewrite <- !app_assoc.
Qed.

(** X4: a request that contains GET and whose second token names a
    readable regular file with a known type is answered, when the echo of
    line 144 prints and [sendall] writes everything, with the 200 response
    carrying that type and the file's bytes, and the connection is then
    closed.  When the echo raises, the client gets nothing but the close;
    when [sendall] raises, a beginning of that response at most. *)
Theorem existing_file_is_served
        (e : env) (c : connection) (request path : str) (content mime_type : bytes) :
  read_request (incoming c) [] = Returns (Ok request) ->
  parse_request request = Ok path ->
  stat e (webroot_path e path) = Some (File (Some content)) ->
  guess_mime_type e (webroot_path e path) = Ok mime_type ->
  (echo e request = Ok tt ->
   sending c = SendsAll ->
   handle_connection e c
   = Finished [Sent (b ("HTTP/1.1 200 OK" ++ CRLF ++ "Content-Type: ") ++ mime_type
                     ++ b (CRLF ++ CRLF) ++ content);
               Closed])
  /\ (forall x, echo e request = Raise x ->
       handle_connection e c = Finished [Traceback x; Closed])
  /\ (forall n, echo e request = Ok tt ->
       sending c = SendFails n ->
       handle_connection e c
       = Finished (part_events
                     (part n (b ("HTTP/1.1 200 OK" ++ CRLF ++ "Content-Type: ") ++ mime_type
                              ++ b (CRLF ++ CRLF) ++ content))
                   ++ [Traceback OSError; Closed])).
Proof.
  intros Hr Hp Hs Hm.
  assert (Hb : build_response e request = Ok (response_ok content mime_type)).
  { unfold build_response. rewrite Hp. cbn [bind].
    rewrite (response_path_file e path _ Hs), Hm. reflexivity. }
  rewrite (handle_connection_exact e c request Hr), Hb, delivery_cases.
  rewrite response_ok_concat.
  split; [|split].
  - intros -> ->. reflexivity.
  - intros x ->. reflexivity.
  - intros n -> ->. now rewrite <- app_assoc.
Qed.

Lemma existing_file_is_served_witness :
  handle_connection Demo.site (Demo.client ("GET /images/a.png HTTP/1.1" ++ CRLF ++ CRLF))
  = Finished [Sent (b ("HTTP/1.1 200 OK" ++ CRLF ++ "Content-Type: image/png"
                       ++ CRLF ++ CRLF ++ "PNG"));
              Closed].
Proof.
  apply (proj1 (existing_file_is_served Demo.site
                  (Demo.client ("GET /images/a.png HTTP/1.1" ++ CRLF ++ CRLF))
                  (u ("GET /images/a.png HTTP/1.1" ++ CRLF ++ CRLF))
                  (u "/images/a.png") (b "PNG") (b "image/png")
                  eq_refl eq_refl eq_refl eq_refl));
    reflexivity.
Defined.


(* ================================================================== *)
(** * UTF-8: encoding undoes decoding *)

Lemma octet_to_N (x : byte) : octet (Byte.to_N x) = x.
Proof. unfold octet. now rewrite Byte.of_to_N. Qed.

(** The base 64 digits of a number determine it. *)
Lemma base64_unique (c d0 d1 d2 d3 : N) :
  d0 < 64 -> d1 < 64 -> d2 < 64 ->
  c = d0 + 64 * (d1 + 64 * (d2 + 64 * d3)) ->
  c mod 64 = d0 /\ (c / 64) mod 64 = d1 /\ (c / 4096) mod 64 = d2 /\ c / 262144 = d3
  /\ c / 64 = d1 + 64 * (d2 + 64 * d3) /\ c / 4096 = d2 + 64 * d3.
Proof.
  intros L0 L1 L2 Hc.
  destruct (base64_digits c)
    as (e0 & e1 & e2 & e3 & -> & -> & -> & -> & -> & -> & Hc' & M0 & M1 & M2).
  repeat split; lia.
Qed.

Lemma utf8_char_2 (x0 x1 : N) :
  0xC2 <= x0 -> x0 <= 0xDF -> 0x80 <= x1 -> x1 <= 0xBF ->
  utf8_char ((x0 - 0xC0) * 64 + (x1 - 0x80)) = Some [octet x0; octet x1]
  /\ scalar ((x0 - 0xC0) * 64 + (x1 - 0x80)).
Proof.
  intros H0 H0' H1 H1'.
  set (c := (x0 - 0xC0) * 64 + (x1 - 0x80)).
  destruct (base64_unique c (x1 - 0x80) (x0 - 0xC0) 0 0)
    as (E0 & _ & _ & _ & E1 & _); try (subst c; lia).
  split.
  - unfold utf8_char.
    replace (c <? 0x80) with false by (subst c; leb_false).
    replace (c <? 0x800) with true by (subst c; leb_true).
    rewrite E0, E1. repeat f_equal; lia.
  - split; [subst c; lia|]. unfold is_surrogate.
    replace (0xD800 <=? c) with false by (subst c; leb_false). reflexivity.
Qed.

Lemma utf8_char_3 (x0 x1 x2 : N) :
  0xE0 <= x0 -> x0 <= 0xEF -> 0x80 <= x1 -> x1 <= 0xBF -> 0x80 <= x2 -> x2 <= 0xBF ->
  0x800 <= (x0 - 0xE0) * 4096 + (x1 - 0x80) * 64 + (x2 - 0x80) ->
  is_surrogate ((x0 - 0xE0) * 4096 + (x1 - 0x80) * 64 + (x2 - 0x80)) = false ->
  utf8_char ((x0 - 0xE0) * 4096 + (x1 - 0x80) * 64 + (x2 - 0x80))
    = Some [octet x0; octet x1; octet x2]
  /\ scalar ((x0 - 0xE0) * 4096 + (x1 - 0x80) * 64 + (x2 - 0x80)).
Proof.
  intros H0 H0' H1 H1' H2 H2'.
  set (c := (x0 - 0xE0) * 4096 + (x1 - 0x80) * 64 + (x2 - 0x80)).
  intros Hmin Hsur.
  destruct (base64_unique c (x2 - 0x80) (x1 - 0x80) (x0 - 0xE0) 0)
    as (E0 & E1 & _ & _ & _ & E2); try (subst c; lia).
  split.
  - unfold utf8_char. rewrite Hsur.
    replace (c <? 0x80) with false by leb_false.
    replace (c <? 0x800) with false by leb_false.
    replace (c <? 0x10000) with true by (subst c; leb_true).
    rewrite E0, E1, E2.
    repeat f_equal; lia.
  - split; [subst c; lia | exact Hsur].
Qed.

Lemma utf8_char_4 (x0 x1 x2 x3 : N) :
  0xF0 <= x0 -> x0 <= 0xF4 -> 0x80 <= x1 -> x1 <= 0xBF -> 0x80 <= x2 -> x2 <= 0xBF ->
  0x80 <= x3 -> x3 <= 0xBF ->
  0x10000 <= (x0 - 0xF0) * 262144 + (x1 - 0x80) * 4096 + (x2 - 0x80) * 64 + (x3 - 0x80) ->
  (x0 - 0xF0) * 262144 + (x1 - 0x80) * 4096 + (x2 - 0x80) * 64 + (x3 - 0x80) <= 0x10FFFF ->
  utf8_char ((x0 - 0xF0) * 262144 + (x1 - 0x80) * 4096 + (x2 - 0x80) * 64 + (x3 - 0x80))
    = Some [octet x0; octet x1; octet x2; octet x3]
  /\ scalar ((x0 - 0xF0) * 262144 + (x1 - 0x80) * 4096 + (x2 - 0x80) * 64 + (x3 - 0x80)).
Proof.
  intros H0 H0' H1 H1' H2 H2' H3 H3'.
  set (c := (x0 - 0xF0) * 262144 + (x1 - 0x80) * 4096 + (x2 - 0x80) * 64 + (x3 - 0x80)).
  intros Hmin Hmax.
  destruct (base64_unique c (x3 - 0x80) (x2 - 0x80) (x1 - 0x80) (x0 - 0xF0))
    as (E0 & E1 & E2 & E3 & _ & _); try (subst c; lia).
  assert (Hsur : is_surrogate c = false).
  { unfold is_surrogate. replace (c <=? 0xDFFF) with false by leb_false.
    apply andb_false_r. }
  split.
  - unfold utf8_char. rewrite Hsur.
    replace (c <? 0x80) with false by leb_false.
    replace (c <? 0x800) with false by leb_false.
    replace (c <? 0x10000) with false by leb_false.
    replace (c <=? 0x10FFFF) with true by leb_true.
    rewrite E0, E1, E2, E3.
    repeat f_equal; lia.
  - split; [exact Hmax | exact Hsur].
Qed.

(** One step of decoding consumes the UTF-8 form of one scalar value. *)
Lemma utf8_decode_step (b0 : byte) (r0 : bytes) (x' : str) :
  utf8_decode (b0 :: r0) = Some x' ->
  exists c h d x,
    b0 :: r0 = h ++ d /\ h <> [] /\ utf8_char c = Some h /\ scalar c
    /\ utf8_decode d = Some x /\ x' = c :: x.
Proof.
  rewrite utf8_decode_cons. cbv zeta.
  assert (Hpush : forall c r, push c r = Some x' -> exists x, r = Some x /\ x' = c :: x).
  { intros c [x|]; cbn; [intros [= <-]; eauto | discriminate]. }
  destruct (Byte.to_N b0 <? 0x80) eqn:E1.
  { intros H. destruct (Hpush _ _ H) as (x & Hx & ->).
    apply N.ltb_lt in E1.
    exists (Byte.to_N b0), [b0], r0, x. repeat split; try assumption; try discriminate.
    - unfold utf8_char. replace (Byte.to_N b0 <? 0x80) with true by leb_true.
      now rewrite octet_to_N.
    - lia.
    - unfold is_surrogate. replace (0xD800 <=? Byte.to_N b0) with false by leb_false.
      reflexivity. }
  destruct ((0xC2 <=? Byte.to_N b0) && (Byte.to_N b0 <=? 0xDF)) eqn:E2.
  { apply andb_prop in E2 as [L0 L0']. apply N.leb_le in L0, L0'.
    destruct r0 as [|b1 r1]; [discriminate|].
    unfold is_cont.
    destruct ((0x80 <=? Byte.to_N b1) && (Byte.to_N b1 <=? 0xBF)) eqn:C1; [|discriminate].
    apply andb_prop in C1 as [L1 L1']. apply N.leb_le in L1, L1'.
    intros H. destruct (Hpush _ _ H) as (x & Hx & ->).
    destruct (utf8_char_2 _ _ L0 L0' L1 L1') as [Hc Hs].
    rewrite !octet_to_N in Hc.
    eexists _, [b0; b1], r1, x. split; [reflexivity|]; split; [discriminate|]; split; [exact Hc|]; split; [exact Hs|]; split; [exact Hx | reflexivity]. }
  destruct ((0xE0 <=? Byte.to_N b0) && (Byte.to_N b0 <=? 0xEF)) eqn:E3.
  { apply andb_prop in E3 as [L0 L0']. apply N.leb_le in L0, L0'.
    destruct r0 as [|b1 [|b2 r2]]; try discriminate.
    unfold is_cont.
    destruct ((0x80 <=? Byte.to_N b1) && (Byte.to_N b1 <=? 0xBF)) eqn:C1; [|discriminate].
    destruct ((0x80 <=? Byte.to_N b2) && (Byte.to_N b2 <=? 0xBF)) eqn:C2; [|discriminate].
    cbn [andb].
    destruct (0x800 <=? _) eqn:Hmin; [|discriminate].
    destruct (is_surrogate _) eqn:Hsur; [discriminate|].
    cbn [andb negb].
    apply andb_prop in C1 as [L1 L1']. apply N.leb_le in L1, L1'.
    apply andb_prop in C2 as [L2 L2']. apply N.leb_le in L2, L2'.
    apply N.leb_le in Hmin.
    intros H. destruct (Hpush _ _ H) as (x & Hx & ->).
    destruct (utf8_char_3 _ _ _ L0 L0' L1 L1' L2 L2' Hmin Hsur) as [Hc Hs].
    rewrite !octet_to_N in Hc.
    eexists _, [b0; b1; b2], r2, x. split; [reflexivity|]; split; [discriminate|]; split; [exact Hc|]; split; [exact Hs|]; split; [exact Hx | reflexivity]. }
  destruct ((0xF0 <=? Byte.to_N b0) && (Byte.to_N b0 <=? 0xF4)) eqn:E4; [|discriminate].
  apply andb_prop in E4 as [L0 L0']. apply N.leb_le in L0, L0'.
  destruct r0 as [|b1 [|b2 [|b3 r3]]]; try discriminate.
  unfold is_cont.
  destruct ((0x80 <=? Byte.to_N b1) && (Byte.to_N b1 <=? 0xBF)) eqn:C1; [|discriminate].
  destruct ((0x80 <=? Byte.to_N b2) && (Byte.to_N b2 <=? 0xBF)) eqn:C2; [|discriminate].
  destruct ((0x80 <=? Byte.to_N b3) && (Byte.to_N b3 <=? 0xBF)) eqn:C3; [|discriminate].
  cbn [andb].
  destruct (0x10000 <=? _) eqn:Hmin; [|discriminate].
  destruct (_ <=? 0x10FFFF) eqn:Hmax; [|discriminate].
  cbn [andb].
  apply andb_prop in C1 as [L1 L1']. apply N.leb_le in L1, L1'.
  apply andb_prop in C2 as [L2 L2']. apply N.leb_le in L2, L2'.
  apply andb_prop in C3 as [L3 L3']. apply N.leb_le in L3, L3'.
  apply N.leb_le in Hmin, Hmax.
  intros H. destruct (Hpush _ _ H) as (x & Hx & ->).
  destruct (utf8_char_4 _ _ _ _ L0 L0' L1 L1' L2 L2' L3 L3' Hmin Hmax) as [Hc Hs].
  rewrite !octet_to_N in Hc.
  eexists _, [b0; b1; b2; b3], r3, x. split; [reflexivity|]; split; [discriminate|]; split; [exact Hc|]; split; [exact Hs|]; split; [exact Hx | reflexivity].
Qed.

(** Induction over a successful decoding, one character at a time. *)
Lemma utf8_decode_ind (P : bytes -> str -> Prop) :
  P [] [] ->
  (forall c h d x,
      utf8_char c = Some h -> scalar c -> utf8_decode d = Some x -> P d x ->
      P (h ++ d) (c :: x)) ->
  forall d x, utf8_decode d = Some x -> P d x.
Proof.
  intros Hnil Hcons d.
  assert (H : forall n d, (List.length d <= n)%nat -> forall x, utf8_decode d = Some x -> P d x).
  { induction n as [|n IH]; intros d' Hlen x Hx.
    - destruct d'; [|cbn in Hlen; lia]. cbn in Hx. now injection Hx as <-.
    - destruct d' as [|b0 r0]; [cbn in Hx; now injection Hx as <-|].
      destruct (utf8_decode_step b0 r0 x Hx) as (c & h & d'' & x'' & E & Hne & Hc & Hs & Hd & ->).
      rewrite E. apply Hcons; try assumption.
      apply IH; [|exact Hd].
      apply (f_equal (@List.length byte)) in E. rewrite length_app in E.
      destruct h; [congruence|]. cbn in E, Hlen. lia. }
  intros x. apply (H (List.length d) d). lia.
Qed.

(** Encoding undoes decoding, and decoded text holds scalar values only. *)
Lemma utf8_encode_decode (d : bytes) (x : str) :
  utf8_decode d = Some x -> utf8_encode x = Some d /\ Forall scalar x.
Proof.
  revert d x. apply utf8_decode_ind.
  - split; [reflexivity | constructor].
  - intros c h d x Hc Hs _ [IH1 IH2]. split.
    + cbn [utf8_encode]. now rewrite Hc, IH1.
    + now constructor.
Qed.

(** Decoding a chunk that decodes, followed by more bytes. *)
Lemma utf8_decode_app (d1 d2 : bytes) (x1 : str) :
  utf8_decode d1 = Some x1 ->
  utf8_decode (d1 ++ d2) =
    match utf8_decode d2 with
    | Some x2 => Some (x1 ++ x2)
    | None => None
    end.
Proof.
  revert d1 x1. apply utf8_decode_ind.
  - cbn [app]. now destruct (utf8_decode d2).
  - intros c h d x Hc _ _ IH.
    rewrite <- app_assoc, (utf8_decode_char c h _ Hc), IH.
    now destruct (utf8_decode d2).
Qed.

Lemma utf8_decode_concat (ds : list bytes) (texts : list str) :
  Forall2 (fun d t => decode d = Ok t) ds texts ->
  utf8_decode (List.concat ds) = Some (List.concat texts).
Proof.
  induction 1 as [|d t ds texts Hd _ IH]; [reflexivity|].
  cbn [List.concat]. unfold decode in Hd.
  destruct (utf8_decode d) as [t'|] eqn:Ed; [|discriminate].
  injection Hd as ->. now rewrite (utf8_decode_app d _ t Ed), IH.
Qed.

(* ================================================================== *)
(** * The read loop *)

(** The data of the [recv] calls that deliver text. *)
Lemma delivers_data (rs : list recv_result) (texts : list str) :
  Forall2 delivers rs texts ->
  exists ds, rs = List.map Data ds /\ Forall2 (fun d t => decode d = Ok t) ds texts.
Proof.
  induction 1 as [|r t rs texts (d & -> & Hd) _ (ds & -> & IH)].
  - now exists [].
  - exists (d :: ds). split; [reflexivity | now constructor].
Qed.

(** A read loop that ends with a request used some [recv] calls that all
    delivered text, and stopped at the first call after which the text
    held the header terminator. *)
Lemma read_request_returns_from (rs : list recv_result) (request0 request : str) :
  contains (u (CRLF ++ CRLF)) request0 = false ->
  read_request rs request0 = Returns (Ok request) ->
  exists used last later texts t,
    rs = used ++ last :: later
    /\ Forall2 delivers used texts
    /\ delivers last t
    /\ request = request0 ++ List.concat texts ++ t
    /\ contains (u (CRLF ++ CRLF)) (request0 ++ List.concat texts) = false
    /\ contains (u (CRLF ++ CRLF)) request = true
    /\ forall later', read_request (used ++ last :: later') request0 = Returns (Ok request).
Proof.
  revert request0; induction rs as [|[d|] rs IH]; intros request0 H0;
    cbn [read_request]; try discriminate.
  destruct (decode d) as [t0|x] eqn:Ed; [|discriminate].
  destruct (contains (u (CRLF ++ CRLF)) (request0 ++ t0)) eqn:Ec.
  - intros [= <-]. exists [], (Data d), rs, [], t0.
    split; [reflexivity|]. split; [constructor|]. split; [now exists d|].
    split; [reflexivity|]. split; [cbn [List.concat]; now rewrite app_nil_r|].
    split; [exact Ec|].
    intros later'. cbn [app read_request]. now rewrite Ed, Ec.
  - intros H.
    destruct (IH _ Ec H)
      as (used & last & later & texts & t & -> & HF & Hl & -> & Hc & Hc' & Hlater).
    exists (Data d :: used), last, later, (t0 :: texts), t.
    split; [reflexivity|]. split; [constructor; [now exists d | exact HF]|].
    split; [exact Hl|]. cbn [List.concat].
    rewrite <- !app_assoc in *.
    split; [reflexivity|]. split; [exact Hc|]. split; [exact Hc'|].
    intros later'. cbn [app read_request]. rewrite Ed, Ec. apply Hlater.
Qed.

(** X6: when the read loop hands a request to the parser, the request is
    the text of the first [recv] calls put together, it holds the header
    terminator, and without the text of the last call used it did not:
    the loop stops at the first call that completes the header, keeps
    whatever that call delivered after the terminator, and reads nothing
    of what the peer sends later. *)
Theorem read_request_returns (rs : list recv_result) (request : str) :
  read_request rs [] = Returns (Ok request) ->
  exists used last later texts t,
    rs = used ++ last :: later
    /\ Forall2 delivers used texts
    /\ delivers last t
    /\ request = List.concat texts ++ t
    /\ contains (u (CRLF ++ CRLF)) (List.concat texts) = false
    /\ contains (u (CRLF ++ CRLF)) request = true
    /\ forall later', read_request (used ++ last :: later') [] = Returns (Ok request).
Proof.
  intros H. exact (read_request_returns_from rs [] request eq_refl H).
Qed.

Lemma read_request_returns_witness :
  read_request [Data (b ("GET / HTTP/1.1" ++ CRLF)); Data (b (CRLF ++ "extra")); Data (b "later")] []
  = Returns (Ok (u ("GET / HTTP/1.1" ++ CRLF ++ CRLF ++ "extra")))
  /\ contains (u (CRLF ++ CRLF)) (u ("GET / HTTP/1.1" ++ CRLF ++ CRLF ++ "extra")) = true.
Proof.
  assert (H : read_request [Data (b ("GET / HTTP/1.1" ++ CRLF)); Data (b (CRLF ++ "extra"));
                            Data (b "later")] []
              = Returns (Ok (u ("GET / HTTP/1.1" ++ CRLF ++ CRLF ++ "extra")))) by reflexivity.
  split; [exact H|].
  destruct (read_request_returns _ _ H) as (_ & _ & _ & _ & _ & _ & _ & _ & _ & _ & Hc & _).
  exact Hc.
Defined.

Lemma delivers_map_data (ds : list bytes) (texts : list str) :
  Forall2 delivers (List.map Data ds) texts ->
  Forall2 (fun d t => decode d = Ok t) ds texts.
Proof.
  revert texts; induction ds as [|d ds IH]; intros texts H; cbn [List.map] in H.
  - inversion H. constructor.
  - apply delivers_cons in H as (d' & t & texts' & [= <-] & Hd & -> & HF).
    constructor; [exact Hd | now apply IH].
Qed.

(** X7: the text of a request re-encodes to exactly the bytes received:
    when the read loop hands over a request, the [recv] calls it used all
    returned data, the request is the decoding of those data put together,
    encoding the request gives them back, and the request holds no lone
    surrogate. *)
Theorem request_is_bytes_received (rs : list recv_result) (request : str) :
  read_request rs [] = Returns (Ok request) ->
  exists ds later,
    rs = List.map Data ds ++ later
    /\ ds <> []
    /\ decode (List.concat ds) = Ok request
    /\ encode request = Ok (List.concat ds)
    /\ Forall scalar request.
Proof.
  intros H.
  destruct (read_request_returns_from rs [] request eq_refl H)
    as (used & last & later & texts & t & -> & HF & (d & -> & Hd) & -> & _).
  destruct (delivers_data used texts HF) as (ds0 & -> & HF0).
  assert (Hdec : utf8_decode (List.concat (ds0 ++ [d])) = Some (List.concat texts ++ t)).
  { replace (List.concat texts ++ t) with (List.concat (texts ++ [t]))
      by (rewrite concat_app; cbn [List.concat]; now rewrite app_nil_r).
    apply utf8_decode_concat. apply Forall2_app; [exact HF0 | now repeat constructor]. }
  exists (ds0 ++ [d]), later.
  split; [rewrite map_app, <- app_assoc; reflexivity|].
  split; [now destruct ds0|].
  destruct (utf8_encode_decode _ _ Hdec) as [Henc Hs].
  cbn [app]. unfold decode, encode. now rewrite Hdec, Henc.
Qed.

Lemma request_is_bytes_received_witness :
  read_request [Data (b "GET /caf"); Data [xc3; xa9]; Data (b (" HTTP/1.1" ++ CRLF ++ CRLF))] []
  = Returns (Ok (u "GET /caf" ++ [0xE9] ++ u (" HTTP/1.1" ++ CRLF ++ CRLF)))
  /\ exists ds later,
       [Data (b "GET /caf"); Data [xc3; xa9]; Data (b (" HTTP/1.1" ++ CRLF ++ CRLF))]
       = List.map Data ds ++ later
       /\ ds <> []
       /\ decode (List.concat ds)
          = Ok (u "GET /caf" ++ [0xE9] ++ u (" HTTP/1.1" ++ CRLF ++ CRLF))
       /\ encode (u "GET /caf" ++ [0xE9] ++ u (" HTTP/1.1" ++ CRLF ++ CRLF))
          = Ok (List.concat ds)
       /\ Forall scalar (u "GET /caf" ++ [0xE9] ++ u (" HTTP/1.1" ++ CRLF ++ CRLF)).
Proof.
  split; [reflexivity|].
  apply request_is_bytes_received. reflexivity.
Defined.

Lemma contains_app_false (p x y : str) :
  contains p (x ++ y) = false -> contains p x = false.
Proof.
  intros H. destruct (contains p x) eqn:E; [|reflexivity].
  now rewrite (contains_app p x y E) in H.
Qed.

(** Reading on after calls that delivered text without completing the
    header. *)
Lemma read_request_app_delivered (rs more : list recv_result) (texts : list str) :
  Forall2 delivers rs texts ->
  forall request,
    contains (u (CRLF ++ CRLF)) (request ++ List.concat texts) = false ->
    read_request (rs ++ more) request = read_request more (request ++ List.concat texts).
Proof.
  induction 1 as [|r t rs texts (d & -> & Hd) _ IH]; intros request Hc.
  - cbn [app List.concat]. now rewrite app_nil_r.
  - cbn [app read_request List.concat] in *. rewrite Hd.
    rewrite app_assoc in Hc.
    rewrite (contains_app_false _ _ _ Hc), (IH _ Hc).
    now rewrite <- app_assoc.
Qed.

(** X8: how the peer's bytes are cut into [recv] calls does not matter, as
    long as no call before the last one ends inside a character or
    completes the header: if the read loop is still waiting after the
    chunks [ds], then handling [ds] followed by one more chunk gives
    exactly what handling all those bytes received in a single call
    gives, whether that is a response or a decoding failure. *)
Theorem chunking_does_not_matter (e : env) (ds : list bytes) (last : bytes) (s : send_result) :
  read_request (List.map Data ds) [] = Never ->
  handle_connection e {| incoming := List.map Data (ds ++ [last]); sending := s |}
  = handle_connection e {| incoming := [Data (List.concat (ds ++ [last]))]; sending := s |}.
Proof.
  intros H.
  apply (read_request_never_iff _ [] eq_refl) in H as (texts & HF & Hc).
  assert (Hdec := utf8_decode_concat ds texts (delivers_map_data ds texts HF)).
  assert (Hr : read_request (List.map Data (ds ++ [last])) []
               = read_request [Data (List.concat (ds ++ [last]))] []).
  { rewrite map_app, (read_request_app_delivered _ _ texts HF [] Hc).
    cbn [List.map app read_request].
    rewrite concat_app. cbn [List.concat]. rewrite app_nil_r.
    unfold decode. rewrite (utf8_decode_app _ last _ Hdec).
    now destruct (utf8_decode last). }
  unfold handle_connection. cbn [incoming sending]. now rewrite Hr.
Qed.

Lemma chunking_does_not_matter_witness :
  handle_connection Demo.site
    {| incoming := List.map Data [b "GET /ind"; b "ex.html HTTP/1.1"; b CRLF; b CRLF];
       sending := SendsAll |}
  = handle_connection Demo.site
      {| incoming := [Data (b ("GET /index.html HTTP/1.1" ++ CRLF ++ CRLF))];
         sending := SendsAll |}.
Proof.
  apply (chunking_does_not_matter Demo.site
           [b "GET /ind"; b "ex.html HTTP/1.1"; b CRLF] (b CRLF) SendsAll).
  reflexivity.
Defined.

(** A lead byte with too few bytes after it does not decode. *)
Lemma utf8_decode_short (b0 : byte) (r0 : bytes) :
  0x80 <= Byte.to_N b0 ->
  (List.length r0 < (if Byte.to_N b0 <? 0xE0 then 1 else if Byte.to_N b0 <? 0xF0 then 2 else 3))%nat ->
  utf8_decode (b0 :: r0) = None.
Proof.
  intros Hx Hlen. rewrite utf8_decode_cons. cbv zeta.
  replace (Byte.to_N b0 <? 0x80) with false by leb_false.
  destruct ((0xC2 <=? Byte.to_N b0) && (Byte.to_N b0 <=? 0xDF)) eqn:E2.
  { apply andb_prop in E2 as [_ L]. apply N.leb_le in L.
    replace (Byte.to_N b0 <? 0xE0) with true in Hlen by leb_true.
    destruct r0; [reflexivity | cbn in Hlen; lia]. }
  destruct ((0xE0 <=? Byte.to_N b0) && (Byte.to_N b0 <=? 0xEF)) eqn:E3.
  { apply andb_prop in E3 as [L L']. apply N.leb_le in L, L'.
    replace (Byte.to_N b0 <? 0xE0) with false in Hlen by leb_false.
    replace (Byte.to_N b0 <? 0xF0) with true in Hlen by leb_true.
    destruct r0 as [|? [|? ?]]; [reflexivity | reflexivity | cbn in Hlen; lia]. }
  destruct ((0xF0 <=? Byte.to_N b0) && (Byte.to_N b0 <=? 0xF4)) eqn:E4; [|reflexivity].
  apply andb_prop in E4 as [L L']. apply N.leb_le in L, L'.
  replace (Byte.to_N b0 <? 0xE0) with false in Hlen by leb_false.
  replace (Byte.to_N b0 <? 0xF0) with false in Hlen by leb_false.
  destruct r0 as [|? [|? [|? ?]]]; [reflexivity | reflexivity | reflexivity | cbn in Hlen; lia].
Qed.

(** No proper part of the UTF-8 form of a character decodes. *)
Lemma utf8_char_cut (c : char) (h : bytes) (n : nat) :
  utf8_char c = Some h ->
  (0 < n < List.length h)%nat ->
  utf8_decode (firstn n h) = None.
Proof.
  unfold utf8_char.
  destruct (base64_digits c)
    as (d0 & d1 & d2 & d3 & -> & -> & -> & -> & -> & -> & Hc & L0 & L1 & L2).
  destruct (c <? 0x80) eqn:E1.
  { intros H Hn. assert (h = [octet c]) by congruence. subst h. cbn in Hn. lia. }
  apply N.ltb_ge in E1.
  destruct (c <? 0x800) eqn:E2.
  { apply N.ltb_lt in E2. intros H Hn.
    assert (Eh : h = [octet (0xC0 + (d1 + 64 * (d2 + 64 * d3))); octet (0x80 + d0)])
      by congruence.
    subst h. cbn [List.length] in Hn.
    destruct n as [|[|n]]; try lia. cbn [firstn].
    apply utf8_decode_short; rewrite to_N_octet by lia; [lia|].
    replace (0xC0 + (d1 + 64 * (d2 + 64 * d3)) <? 0xE0) with true by leb_true.
    cbn. lia. }
  apply N.ltb_ge in E2.
  destruct (is_surrogate c); [discriminate|].
  destruct (c <? 0x10000) eqn:E4.
  { apply N.ltb_lt in E4. intros H Hn.
    assert (Eh : h = [octet (0xE0 + (d2 + 64 * d3)); octet (0x80 + d1); octet (0x80 + d0)])
      by congruence.
    subst h. cbn [List.length] in Hn.
    destruct n as [|[|[|n]]]; try lia; cbn [firstn];
      (apply utf8_decode_short; rewrite to_N_octet by lia; [lia|];
       replace (0xE0 + (d2 + 64 * d3) <? 0xE0) with false by leb_false;
       replace (0xE0 + (d2 + 64 * d3) <? 0xF0) with true by leb_true;
       cbn; lia). }
  apply N.ltb_ge in E4.
  destruct (c <=? 0x10FFFF) eqn:E5; [|discriminate].
  apply N.leb_le in E5. intros H Hn.
  assert (Eh : h = [octet (0xF0 + d3); octet (0x80 + d2); octet (0x80 + d1); octet (0x80 + d0)])
    by congruence.
  subst h. cbn [List.length] in Hn.
  destruct n as [|[|[|[|n]]]]; try lia; cbn [firstn];
    (apply utf8_decode_short; rewrite to_N_octet by lia; [lia|];
     replace (0xF0 + d3 <? 0xE0) with false by leb_false;
     replace (0xF0 + d3 <? 0xF0) with false by leb_false;
     cbn; lia).
Qed.

(** X9: every [recv] chunk is decoded on its own (line 139), so a chunk
    that ends inside a multi-byte character is refused although the bytes
    of the whole character decode: when [pre] decodes and [h] is the UTF-8
    form of a character, a first chunk made of [pre] and a proper part of
    [h] ends the handling with a UnicodeDecodeError traceback, no
    response, and the close, whatever the peer sends next. *)
Theorem chunk_cut_inside_character
        (e : env) (pre h : bytes) (t : str) (c : char) (n : nat)
        (rs : list recv_result) (s : send_result) :
  decode pre = Ok t ->
  utf8_char c = Some h ->
  (0 < n < List.length h)%nat ->
  decode (pre ++ h) = Ok (t ++ [c])
  /\ decode (pre ++ firstn n h) = Raise UnicodeDecodeError
  /\ handle_connection e {| incoming := Data (pre ++ firstn n h) :: rs; sending := s |}
     = Finished [Traceback UnicodeDecodeError; Closed].
Proof.
  intros Hpre Hc Hn. unfold decode in Hpre.
  destruct (utf8_decode pre) as [t'|] eqn:Ep; [|discriminate].
  injection Hpre as ->.
  assert (H1 : decode (pre ++ h) = Ok (t ++ [c])).
  { unfold decode. rewrite (utf8_decode_app pre h t Ep).
    rewrite <- (app_nil_r h), (utf8_decode_char c h [] Hc). reflexivity. }
  assert (H2 : decode (pre ++ firstn n h) = Raise UnicodeDecodeError).
  { unfold decode. now rewrite (utf8_decode_app pre _ t Ep), (utf8_char_cut c h n Hc Hn). }
  split; [exact H1|]. split; [exact H2|].
  unfold handle_connection. cbn [incoming read_request]. now rewrite H2.
Qed.

Lemma chunk_cut_inside_character_witness :
  decode (b "GET /caf" ++ [xc3; xa9]) = Ok (u "GET /caf" ++ [0xE9])
  /\ handle_connection Demo.site
       {| incoming := [Data (b "GET /caf" ++ [xc3]);
                       Data ([xa9] ++ b (" HTTP/1.1" ++ CRLF ++ CRLF))];
          sending := SendsAll |}
     = Finished [Traceback UnicodeDecodeError; Closed].
Proof.
  assert (Hn : (0 < 1 < List.length [xc3; xa9])%nat) by (cbn; lia).
  destruct (chunk_cut_inside_character Demo.site (b "GET /caf") [xc3; xa9] (u "GET /caf")
              0xE9 1 [Data ([xa9] ++ b (" HTTP/1.1" ++ CRLF ++ CRLF))] SendsAll
              eq_refl eq_refl Hn) as (H1 & _ & H3).
  split; [exact H1 | exact H3].
Defined.

(* ================================================================== *)
(** * One connection after the other *)

Lemma handle_connection_finished_iff (e : env) (c : connection) :
  (exists l, handle_connection e c = Finished l) <-> read_request (incoming c) [] <> Never.
Proof.
  split.
  - intros [l H] Hn. unfold handle_connection in H. rewrite Hn in H. discriminate H.
  - intros Hn.
    destruct (handle_connection_events e c)
      as [[Hn' E]|[[_ [x E]]|(request & d & _ & _ & _ & [[_ E]|(n & _ & E)])]];
      [now contradiction Hn | | |]; rewrite E; eauto.
Qed.

Lemma handle_connection_stuck (e : env) (c : connection) :
  read_request (incoming c) [] = Never -> handle_connection e c = Stuck [].
Proof. intros H. unfold handle_connection. now rewrite H. Qed.

Lemma closes_app (l l' : list event) : closes (l ++ l') = (closes l + closes l')%nat.
Proof.
  induction l as [|[d|d|x|] l IH]; cbn [app closes];
    [reflexivity | exact IH | exact IH | exact IH |].
  now rewrite IH.
Qed.

Lemma handle_connection_closes (e : env) (c : connection) (l : list event) :
  handle_connection e c = Finished l -> closes l = 1%nat.
Proof.
  destruct (handle_connection_events e c)
    as [[_ E]|[[_ [x E]]|(request & d & _ & _ & _ & [[_ E]|(n & _ & E)])]]; rewrite E;
    [discriminate | | |]; intros [= <-]; try reflexivity.
  unfold part_events. now destruct (part n d).
Qed.

(** X10: the accept loop serves connections strictly one after the other.
    When every connection of [cs1] is handled to its end, the events of
    [cs1 ++ cs2] are those of [cs1] followed by those of [cs2], and each
    connection of [cs1] is closed exactly once.  A connection whose read
    loop never ends stops the service: no connection accepted after it is
    ever handled. *)
Theorem server_one_at_a_time (e : env) (cs1 cs2 : list connection) :
  (Forall (fun c => read_request (incoming c) [] <> Never) cs1 ->
   server e (cs1 ++ cs2) = server e cs1 ++ server e cs2
   /\ closes (server e cs1) = List.length cs1)
  /\ (forall c, read_request (incoming c) [] = Never ->
                server e (cs1 ++ c :: cs2) = server e cs1).
Proof.
  split.
  - induction 1 as [|c cs Hc _ [IH1 IH2]]; [now split|].
    apply (handle_connection_finished_iff e) in Hc as [l Hl].
    cbn [app server List.length]. rewrite Hl. split.
    + now rewrite IH1, app_assoc.
    + now rewrite closes_app, IH2, (handle_connection_closes e c l Hl).
  - intros c Hc. induction cs1 as [|c1 cs1 IH]; cbn [app server].
    + now rewrite (handle_connection_stuck e c Hc).
    + destruct (handle_connection e c1); [now rewrite IH | reflexivity].
Qed.

Lemma server_one_at_a_time_witness :
  server Demo.site
    [ Demo.client ("GET /empty HTTP/1.1" ++ CRLF ++ CRLF);
      Demo.half_request;
      Demo.client ("GET /index.html HTTP/1.1" ++ CRLF ++ CRLF) ]
  = [ Sent (response_ok [] (b "text/plain")); Closed ].
Proof.
  etransitivity.
  - exact (proj2 (server_one_at_a_time Demo.site
                    [Demo.client ("GET /empty HTTP/1.1" ++ CRLF ++ CRLF)]
                    [Demo.client ("GET /index.html HTTP/1.1" ++ CRLF ++ CRLF)])
                 Demo.half_request eq_refl).
  - reflexivity.
Defined.

(* ================================================================== *)
(** * Telling responses apart *)

Lemma app_cr_inj (m m' r r' : bytes) :
  ~ In x0d m -> ~ In x0d m' ->
  m ++ x0d :: r = m' ++ x0d :: r' -> m = m' /\ r = r'.
Proof.
  revert m'; induction m as [|a m IH]; intros [|a' m'] Hm Hm' E; cbn [app] in E.
  - injection E as <-. now split.
  - injection E as <- _. contradiction Hm'. now left.
  - injection E as -> _. contradiction Hm. now left.
  - injection E as <- E.
    destruct (IH m') with (3 := E) as [<- <-];
      [intros H; apply Hm; now right | intros H; apply Hm'; now right | now split].
Qed.

(** X11: a 200 response determines its parts: for MIME types that hold no
    CR, [response_ok] builds equal bytes only from equal bodies and equal
    types.  And the three kinds of response never coincide, whatever the
    body and the type. *)
Theorem responses_are_distinguishable :
  (forall body body' mimetype mimetype' : bytes,
      ~ In x0d mimetype -> ~ In x0d mimetype' ->
      response_ok body mimetype = response_ok body' mimetype' ->
      body = body' /\ mimetype = mimetype')
  /\ (forall body mimetype : bytes,
        response_ok body mimetype <> response_not_found
        /\ response_ok body mimetype <> response_method_not_allowed)
  /\ response_not_found <> response_method_not_allowed.
Proof.
  split; [|split].
  - intros body body' m m' Hm Hm' E.
    rewrite !response_ok_concat in E. apply app_inv_head in E.
    change (b (CRLF ++ CRLF)) with (x0d :: x0a :: x0d :: [x0a]) in E.
    cbn [app] in E.
    destruct (app_cr_inj _ _ _ _ Hm Hm' E) as [-> E'].
    injection E' as ->. now split.
  - intros body m. split; intros E; rewrite response_ok_concat in E;
      apply (f_equal (firstn 12)) in E; vm_compute in E; discriminate E.
  - intros E. apply (f_equal (firstn 12)) in E. vm_compute in E. discriminate E.
Qed.

Lemma responses_are_distinguishable_witness :
  ~ In x0d (b "text/html")
  /\ (response_ok (b "<p>") (b "text/html") = response_ok (b "<p>") (b "text/html") ->
      b "<p>" = b "<p>" /\ b "text/html" = b "text/html").
Proof.
  assert (H : ~ In x0d (b "text/html")).
  { intros H. vm_compute in H. repeat destruct H as [H|H]; discriminate || contradiction. }
  split; [exact H|].
  exact (proj1 responses_are_distinguishable (b "<p>") (b "<p>") (b "text/html")
           (b "text/html") H H).
Defined.

(* ================================================================== *)
(** * A request target without a leading slash *)

Lemma split_sep_single (sep : char) (x : str) :
  Forall (fun c => c <> sep) x -> split_sep sep x = [x].
Proof.
  induction 1 as [|c x Hc _ IH]; [reflexivity|].
  cbn [split_sep]. apply N.eqb_neq in Hc. now rewrite Hc, IH.
Qed.

Lemma startswith_sep_prefix (p q : str) :
  startswith [SEP] p = true -> startswith [SEP] (p ++ q) = true.
Proof. destruct p; [discriminate | exact (fun H => H)]. Qed.

Lemma step_named (l : bool) (ch : list (str * node)) (up : list node) (name : str) :
  step (Dir l ch :: up) (u "webroot" ++ name) =
    match lookup (u "webroot" ++ name) ch with
    | Some x => Some (x :: Dir l ch :: up)
    | None => None
    end.
Proof. reflexivity. Qed.

(** X12: line 96 puts no separator between 'webroot' and the path.  For a
    request target [name] without any slash, the location looked up is the
    entry called "webroot" followed by [name] in the working directory
    itself: unless [name] is empty that entry is a neighbour of the
    document root, not something inside it. *)
Theorem target_without_slash
        (e : env) (name : str) (l : bool) (ch : list (str * node)) :
  Forall (fun c => c <> SEP) name ->
  stat e (cwd e) = Some (Dir l ch) ->
  stat e (webroot_path e name) = lookup (u "webroot" ++ name) ch
  /\ (name <> [] -> u "webroot" ++ name <> u "webroot").
Proof.
  intros Hname Hcwd. split.
  - assert (Hw : split_sep SEP (u "webroot" ++ name) = [u "webroot" ++ name]).
    { apply split_sep_single. apply Forall_app. split; [|exact Hname].
      repeat constructor; discriminate. }
    destruct (webroot_path_shape e name) as [[E _]|(base & Hb & ->)].
    { rewrite E in Hcwd. discriminate Hcwd. }
    rewrite stat_cut, Hw, walk_app.
    destruct Hb as [E|E]; rewrite E in Hcwd.
    + unfold stat in Hcwd.
      destruct (startswith [SEP] base) eqn:Habs; [|discriminate].
      rewrite (startswith_sep_prefix base _ Habs).
      destruct (walk [root e] (split_sep SEP base)) as [[|x st]|]; try discriminate.
      injection Hcwd as ->. cbn [walk]. rewrite step_named.
      now destruct (lookup (u "webroot" ++ name) ch).
    + change (base ++ [SEP]) with (base ++ SEP :: []) in Hcwd.
      rewrite stat_cut in Hcwd.
      rewrite (startswith_sep_app base _ []).
      destruct (startswith [SEP] (base ++ [SEP])) eqn:Habs; [|discriminate].
      rewrite walk_app in Hcwd.
      destruct (walk [root e] (split_sep SEP base)) as [st|]; [|discriminate].
      cbn [split_sep walk] in Hcwd.
      destruct st as [|[data|l0 ch0|] up]; cbn [step] in Hcwd; try discriminate.
      cbn [eqb_str orb] in Hcwd. injection Hcwd as -> ->.
      cbn [walk]. rewrite step_named.
      now destruct (lookup (u "webroot" ++ name) ch).
  - intros Hne E. apply (f_equal (@List.length char)) in E.
    rewrite length_app in E. destruct name; [congruence | cbn in E; lia].
Qed.

Lemma target_without_slash_witness :
  Forall (fun c => c <> SEP) (u ".bak")
  /\ stat Backup.site (webroot_path Backup.site (u ".bak"))
     = Some (Dir true [ (u "passwords.txt", File (Some (b "hunter2"))) ])
  /\ response_path Backup.site (u ".bak") = Ok (b "passwords.txt", b "text/plain").
Proof.
  assert (H : Forall (fun c => c <> SEP) (u ".bak")) by (repeat constructor; discriminate).
  split; [exact H|]. split; [|reflexivity].
  destruct (target_without_slash Backup.site (u ".bak") true _ H eq_refl) as [E _].
  rewrite E. reflexivity.
Defined.

(* ================================================================== *)
(** * The listening socket *)




Lemma echoed_keeps_listening (e : env) (c : connection) : ~ In SockClosed (echoed e c).
Proof.
  unfold echoed. destruct (read_request (incoming c) []) as [[request|x]|];
    try (intros []).
  destruct (echo e request); [intros [H|[]]; discriminate H | intros []].
Qed.

Lemma conn_keeps_listening (l : list event) : ~ In SockClosed (List.map Conn l).
Proof. intros H. apply in_map_iff in H as (ev & H & _). discriminate H. Qed.



Lemma serve_connection_keeps_listening (e : env) (c : connection) (host : str) (port : N) :
  ~ In SockClosed (serve_connection e c host port).
Proof.
  unfold serve_connection. intros [H|H]; [discriminate H|].
  apply in_app_or in H as [H|H].
  - now apply echoed_keeps_listening in H.
  - now apply conn_keeps_listening in H.
Qed.

Lemma try_outputs_keeps_listening (e : env) (c : connection) (host : str) (port : N) :
  ~ In SockClosed (try_outputs e c host port).
Proof.
  unfold try_outputs. intros [H|H]; [discriminate H|].
  apply in_app_or in H as [H|H].
  - now apply echoed_keeps_listening in H.
  - now apply conn_keeps_listening in H.
Qed.

Lemma in_firstn (A : Type) (x : A) (n : nat) (l : list A) : In x (firstn n l) -> In x l.
Proof.
  revert n; induction l as [|a l IH]; intros [|n]; cbn [firstn]; try contradiction.
  intros [H|H]; [now left | right; eauto].
Qed.


(** The interrupt clause is the only place where line 173 runs. *)
Lemma interrupted_at_keeps_listening
      (e : env) (c : connection) (host : str) (port : N) (point : interrupt_point) :
  ~ In SockClosed (interrupted_at e c host port point).
Proof.
  destruct point as [|seen|n|]; cbn [interrupted_at].
  - intros [].
  - intros H. apply in_app_or in H as [H|[H|[]]]; [|discriminate H].
    apply in_firstn in H. now apply try_outputs_keeps_listening in H.
  - intros [H|H]; [discriminate H|].
    apply in_app_or in H as [H|H]; [now apply echoed_keeps_listening in H|].
    apply in_app_or in H as [H|[H|[]]]; [|discriminate H].
    now apply conn_keeps_listening in H.
  - apply try_outputs_keeps_listening.
Qed.

Lemma handled_keeps_listening (e : env) (c : connection) (host : str) (port : N) :
  ~ In SockClosed (fst (handled e c host port)).
Proof.
  unfold handled. cbn [fst]. intros [H|H]; [discriminate H|].
  now apply serve_connection_keeps_listening in H.
Qed.

Lemma handled_goes_on (e : env) (c : connection) (host : str) (port : N) :
  snd (handled e c host port) = None
  <-> match handle_connection e c with Finished _ => true | Stuck _ => false end = true.
Proof.
  unfold handled. cbn [snd].
  destruct (handle_connection e c); split; (reflexivity || discriminate).
Qed.

(** A turn lets the loop go on exactly when it passes; it then leaves the
    listening socket alone. *)
Lemma turn_passes (e : env) (a : accept_result) :
  snd (turn e a) = None <-> passes e a = true.
Proof.
  destruct a as [c host port|c host port point| | |]; cbn [turn passes];
    try (split; discriminate).
  - apply handled_goes_on.
  - destruct (reached e c point); cbn [negb andb snd].
    + split; discriminate.
    + apply handled_goes_on.
Qed.

(** Line 173 runs in a turn exactly when an interrupt strikes in it; it
    is then the last thing done, and [server] returns. *)
Lemma turn_strikes (e : env) (a : accept_result) :
  (In SockClosed (fst (turn e a)) <-> strikes e a = true)
  /\ (strikes e a = true ->
      snd (turn e a) = Some Returned
      /\ exists evs, fst (turn e a) = evs ++ [SockClosed] /\ ~ In SockClosed evs).
Proof.
  destruct a as [c host port|c host port point| | |]; cbn [turn strikes].
  - split; [|discriminate]. split; [|discriminate].
    intros H. now apply handled_keeps_listening in H.
  - destruct (reached e c point); cbn [fst snd].
    + split.
      * split; [reflexivity|]. intros _. right. apply in_or_app. right. now left.
      * intros _. split; [reflexivity|].
        exists (Log (u "waiting for a connection") :: interrupted_at e c host port point).
        split; [reflexivity|].
        intros [H|H]; [discriminate H|].
        now apply interrupted_at_keeps_listening in H.
    + split; [|discriminate]. split; [|discriminate].
      intros H. now apply handled_keeps_listening in H.
  - cbn [fst snd]. split.
    + split; [reflexivity | intros _; now left].
    + intros _. split; [reflexivity|]. exists []. split; [reflexivity | intros []].
  - cbn [fst snd]. split.
    + split; [reflexivity | intros _; right; now left].
    + intros _. split; [reflexivity|].
      exists [Log (u "waiting for a connection")]. split; [reflexivity|].
      intros [H|[]]; discriminate H.
  - cbn [fst]. split; [|discriminate]. split; [|discriminate].
    intros [H|[H|[]]]; discriminate H.
Qed.

Lemma passes_not_strikes (e : env) (a : accept_result) :
  passes e a = true -> strikes e a = false.
Proof.
  destruct a as [c host port|c host port point| | |]; cbn [passes strikes];
    try reflexivity; try discriminate.
  now destruct (reached e c point).
Qed.

Lemma accept_loop_passes (e : env) (a : accept_result) (rest : list accept_result) :
  passes e a = true ->
  accept_loop e (a :: rest)
  = (fst (turn e a) ++ fst (accept_loop e rest), snd (accept_loop e rest)).
Proof. intros H. apply turn_passes in H. cbn [accept_loop]. now rewrite H. Qed.

Lemma accept_loop_ends (e : env) (a : accept_result) (rest : list accept_result) :
  passes e a = false ->
  exists ended, snd (turn e a) = Some ended /\ accept_loop e (a :: rest) = (fst (turn e a), ended).
Proof.
  intros H. cbn [accept_loop].
  destruct (snd (turn e a)) as [ended|] eqn:E.
  - now exists ended.
  - apply turn_passes in E. congruence.
Qed.

(** The listening socket is closed in the accept loop exactly when a
    KeyboardInterrupt strikes in some turn, every turn before it having
    passed. *)
Lemma accept_loop_closed_iff (e : env) (l : list accept_result) :
  In SockClosed (fst (accept_loop e l)) <->
  exists pre a rest,
    l = pre ++ a :: rest /\ forallb (passes e) pre = true /\ strikes e a = true.
Proof.
  induction l as [|a l IH].
  - cbn [accept_loop fst]. split; [intros [H|[]]; discriminate H|].
    intros (pre & a & rest & E & _). destruct pre; discriminate E.
  - destruct (passes e a) eqn:Hp.
    + rewrite (accept_loop_passes e a l Hp). cbn [fst].
      pose proof (passes_not_strikes e a Hp) as Hs. split.
      * intros H. apply in_app_or in H as [H|H].
        -- apply (proj1 (turn_strikes e a)) in H. congruence.
        -- apply IH in H as (pre & a' & rest & -> & HF & Ha).
           exists (a :: pre), a', rest. cbn [forallb]. now rewrite Hp.
      * intros (pre & a' & rest & E & HF & Ha). apply in_or_app.
        destruct pre as [|a0 pre]; injection E as <- E.
        -- congruence.
        -- right. apply IH. exists pre, a', rest. cbn [forallb] in HF.
           apply andb_prop in HF as [_ HF]. now subst l.
    + destruct (accept_loop_ends e a l Hp) as (ended & _ & ->). cbn [fst]. split.
      * intros H. apply (proj1 (turn_strikes e a)) in H. now exists [], a, l.
      * intros (pre & a' & rest & E & HF & Ha).
        destruct pre as [|a0 pre]; injection E as <- E.
        -- now apply (proj1 (turn_strikes e a)).
        -- cbn [forallb] in HF. rewrite Hp in HF. discriminate HF.
Qed.

Lemma accept_loop_closed_last (e : env) (l : list accept_result) :
  In SockClosed (fst (accept_loop e l)) ->
  snd (accept_loop e l) = Returned
  /\ exists evs, fst (accept_loop e l) = evs ++ [SockClosed] /\ ~ In SockClosed evs.
Proof.
  induction l as [|a l IH].
  - cbn [accept_loop fst]. intros [H|[]]; discriminate H.
  - destruct (passes e a) eqn:Hp.
    + rewrite (accept_loop_passes e a l Hp). cbn [fst snd].
      pose proof (passes_not_strikes e a Hp) as Hs.
      assert (Hno : ~ In SockClosed (fst (turn e a))).
      { intros H. apply (proj1 (turn_strikes e a)) in H. congruence. }
      intros H. apply in_app_or in H as [H|H]; [now contradiction Hno|].
      destruct (IH H) as (Hend & evs & E & Hno').
      split; [exact Hend|]. exists (fst (turn e a) ++ evs).
      split; [now rewrite E, app_assoc|].
      intros H'. apply in_app_or in H' as [H'|H']; [now apply Hno | now apply Hno'].
    + destruct (accept_loop_ends e a l Hp) as (ended & Hended & ->). cbn [fst snd].
      intros H. apply (proj1 (turn_strikes e a)) in H.
      destruct (proj2 (turn_strikes e a) H) as (Hret & evs & E & Hno).
      split; [congruence | now exists evs].
Qed.

Lemma accept_loop_fails (e : env) (pre rest : list accept_result) :
  forallb (passes e) pre = true ->
  snd (accept_loop e (pre ++ AcceptFails :: rest)) = Returned
  /\ ~ In SockClosed (fst (accept_loop e (pre ++ AcceptFails :: rest)))
  /\ In (ServerTraceback OSError) (fst (accept_loop e (pre ++ AcceptFails :: rest))).
Proof.
  induction pre as [|a pre IH]; cbn [app forallb].
  - intros _. cbn [accept_loop turn fst snd]. split; [reflexivity|]. split.
    + intros [H|[H|[]]]; discriminate H.
    + right. now left.
  - intros H. apply andb_prop in H as [Hp HF].
    destruct (IH HF) as (IH1 & IH2 & IH3).
    rewrite (accept_loop_passes e a _ Hp). cbn [fst snd].
    split; [exact IH1|]. split.
    + intros H. apply in_app_or in H as [H|H]; [|now apply IH2].
      apply (proj1 (turn_strikes e a)) in H.
      rewrite (passes_not_strikes e a Hp) in H. discriminate H.
    + apply in_or_app. now right.
Qed.

(** Turns that pass are served one after the other. *)
Lemma accept_loop_app (e : env) (pre l : list accept_result) :
  forallb (passes e) pre = true ->
  accept_loop e (pre ++ l)
  = (flat_map (fun a => fst (turn e a)) pre ++ fst (accept_loop e l),
     snd (accept_loop e l)).
Proof.
  induction pre as [|a pre IH]; cbn [app forallb flat_map].
  - intros _. now destruct (accept_loop e l).
  - intros H. apply andb_prop in H as [Hp HF].
    rewrite (accept_loop_passes e a _ Hp), (IH HF). cbn [fst snd].
    now rewrite app_assoc.
Qed.

(** An interrupt while [recv] waits in a read loop that would never end:
    the connection is closed, then the listening socket. *)
Lemma turn_interrupted_recv (e : env) (c : connection) (host : str) (port : N) :
  read_request (incoming c) [] = Never ->
  turn e (Interrupted c host port (InTry 1))
  = ([Log (u "waiting for a connection");
      Log (u "connection - " ++ format_addr host port);
      Conn Closed; SockClosed], Some Returned).
Proof.
  intros Hn. cbn [turn reached interrupted_at]. unfold try_outputs, echoed.
  now rewrite (handle_connection_stuck e c Hn), Hn.
Qed.

(** X13: [server] closes its listening socket (line 173) exactly when,
    the start having gone well and every turn of the loop before having
    passed, a KeyboardInterrupt arrives: while [accept] waits, before the
    print of line 131, or while an accepted connection is handled, during
    a [recv] or the [sendall] for instance.  The close is then the last
    thing it does before it returns.  When [accept] raises an OSError
    instead, [server] prints the traceback and returns with the listening
    socket left open; when lines 122-127 raise, the exception or the
    interrupt leaves [server], line 173 does not run and no connection is
    ever accepted. *)
Theorem listening_socket_closed_iff_interrupted (e : env) (l : listener) :
  (In SockClosed (fst (server_run e l)) <->
   start l = Starts
   /\ exists pre a rest,
        accepts l = pre ++ a :: rest
        /\ forallb (passes e) pre = true
        /\ strikes e a = true)
  /\ (In SockClosed (fst (server_run e l)) ->
      snd (server_run e l) = Returned
      /\ exists evs, fst (server_run e l) = evs ++ [SockClosed] /\ ~ In SockClosed evs)
  /\ (forall pre rest,
        start l = Starts ->
        accepts l = pre ++ AcceptFails :: rest -> forallb (passes e) pre = true ->
        snd (server_run e l) = Returned
        /\ ~ In SockClosed (fst (server_run e l))
        /\ In (ServerTraceback OSError) (fst (server_run e l)))
  /\ (forall pre c host port rest,
        start l = Starts ->
        accepts l = pre ++ Interrupted c host port (InTry 1) :: rest ->
        forallb (passes e) pre = true ->
        read_request (incoming c) [] = Never ->
        exists evs,
          fst (server_run e l)
          = evs ++ [Log (u "waiting for a connection");
                    Log (u "connection - " ++ format_addr host port);
                    Conn Closed; SockClosed])
  /\ (start l <> Starts ->
      (snd (server_run e l) = Propagated OSError
       \/ snd (server_run e l) = PropagatedInterrupt)
      /\ forall ev, In ev (fst (server_run e l)) ->
                    ev = Log (u "making a server on 127.0.0.1:10000")).
Proof.
  unfold server_run.
  destruct (start l) as [| | | |logged] eqn:Es; cbn [fst snd].
  - split; [|split; [|split; [|split]]].
    + rewrite <- accept_loop_closed_iff. split.
      * intros [H|H]; [discriminate H|]. now split.
      * intros (_ & H). now right.
    + intros [H|H]; [discriminate H|].
      destruct (accept_loop_closed_last e _ H) as (Hend & evs & E & Hno).
      split; [exact Hend|].
      exists (Log (u "making a server on " ++ format_addr (u "127.0.0.1") 10000) :: evs).
      split; [now rewrite E|].
      intros [H'|H']; [discriminate H' | now apply Hno].
    + intros pre rest _ E HF. rewrite E.
      destruct (accept_loop_fails e pre rest HF) as (H1 & H2 & H3).
      split; [exact H1|]. split; [|now right].
      intros [H|H]; [discriminate H | now apply H2].
    + intros pre c host port rest _ E HF Hn. rewrite E.
      rewrite (accept_loop_app e pre _ HF). cbn [fst accept_loop].
      rewrite (turn_interrupted_recv e c host port Hn). cbn [fst snd].
      exists (Log (u "making a server on " ++ format_addr (u "127.0.0.1") 10000)
              :: flat_map (fun a => fst (turn e a)) pre).
      reflexivity.
    + intros H. now contradiction H.
  - split; [|split; [|split; [|split]]].
    + split; [intros [] | intros (H & _); discriminate H].
    + intros [].
    + intros pre rest H. discriminate H.
    + intros pre c host port rest H. discriminate H.
    + intros _. split; [now left | intros ev []].
  - split; [|split; [|split; [|split]]].
    + split; [intros [H|[]]; discriminate H | intros (H & _); discriminate H].
    + intros [H|[]]; discriminate H.
    + intros pre rest H. discriminate H.
    + intros pre c host port rest H. discriminate H.
    + intros _. split; [now left | intros ev [<-|[]]; reflexivity].
  - split; [|split; [|split; [|split]]].
    + split; [intros [H|[]]; discriminate H | intros (H & _); discriminate H].
    + intros [H|[]]; discriminate H.
    + intros pre rest H. discriminate H.
    + intros pre c host port rest H. discriminate H.
    + intros _. split; [now left | intros ev [<-|[]]; reflexivity].
  - split; [|split; [|split; [|split]]].
    + split; [destruct logged; [intros [H|[]]; discriminate H | intros []]
             | intros (H & _); discriminate H].
    + destruct logged; [intros [H|[]]; discriminate H | intros []].
    + intros pre rest H. discriminate H.
    + intros pre c host port rest H. discriminate H.
    + intros _. split; [now right|].
      destruct logged; [intros ev [<-|[]]; reflexivity | intros ev []].
Qed.

Lemma listening_socket_closed_iff_interrupted_witness :
  In SockClosed
     (fst (server_run Demo.site
             {| start := Starts;
                accepts := [Accepted (Demo.client ("GET / HTTP/1.1" ++ CRLF ++ CRLF))
                                     (u "127.0.0.1") 54321;
                            Interrupted Demo.half_request (u "127.0.0.1") 54322 (InTry 1)] |}))
  /\ snd (server_run Demo.site
            {| start := Starts;
               accepts := [Accepted (Demo.client ("GET / HTTP/1.1" ++ CRLF ++ CRLF))
                                    (u "127.0.0.1") 54321;
                           Interrupted Demo.half_request (u "127.0.0.1") 54322 (InTry 1)] |})
     = Returned
  /\ ~ In SockClosed
       (fst (server_run Demo.site
               {| start := Starts;
                  accepts := [Accepted (Demo.client ("GET / HTTP/1.1" ++ CRLF ++ CRLF))
                                       (u "127.0.0.1") 54321;
                              AcceptFails] |})).
Proof.
  pose proof (listening_socket_closed_iff_interrupted Demo.site
                {| start := Starts;
                   accepts := [Accepted (Demo.client ("GET / HTTP/1.1" ++ CRLF ++ CRLF))
                                        (u "127.0.0.1") 54321;
                               Interrupted Demo.half_request (u "127.0.0.1") 54322 (InTry 1)] |})
    as (Hiff & Hlast & _).
  assert (Hin : In SockClosed
                   (fst (server_run Demo.site
                           {| start := Starts;
                              accepts := [Accepted (Demo.client ("GET / HTTP/1.1" ++ CRLF ++ CRLF))
                                                   (u "127.0.0.1") 54321;
                                          Interrupted Demo.half_request (u "127.0.0.1") 54322
                                                      (InTry 1)] |}))).
  { apply Hiff. split; [reflexivity|].
    exists [Accepted (Demo.client ("GET / HTTP/1.1" ++ CRLF ++ CRLF)) (u "127.0.0.1") 54321],
           (Interrupted Demo.half_request (u "127.0.0.1") 54322 (InTry 1)), [].
    split; [reflexivity|]. split; reflexivity. }
  split; [exact Hin|]. split; [exact (proj1 (Hlast Hin))|].
  pose proof (listening_socket_closed_iff_interrupted Demo.site
                {| start := Starts;
                   accepts := [Accepted (Demo.client ("GET / HTTP/1.1" ++ CRLF ++ CRLF))
                                        (u "127.0.0.1") 54321;
                               AcceptFails] |}) as (_ & _ & Hfail & _).
  exact (proj1 (proj2 (Hfail [Accepted (Demo.client ("GET / HTTP/1.1" ++ CRLF ++ CRLF))
                                       (u "127.0.0.1") 54321]
                             [] eq_refl eq_refl eq_refl))).
Defined.











(* ================================================================== *)
(** * White space before the request, a slash after the path *)

Lemma contains_GET_skip (w : char) (x : str) :
  isspace w = true -> contains (u "GET") (w :: x) = contains (u "GET") x.
Proof.
  intros Hw. cbn [contains].
  assert (E : startswith (u "GET") (w :: x) = false).
  { change (u "GET") with [71; 69; 84]. cbn [startswith].
    destruct (71 =? w) eqn:E; [|reflexivity].
    apply N.eqb_eq in E. subst w. discriminate Hw. }
  now rewrite E.
Qed.

(** X15: white space in front of the request line is ignored: a request
    that begins with blank lines or spaces is parsed exactly as the
    request without them. *)
Theorem parse_request_leading_space (ws request : str) :
  Forall (fun c => isspace c = true) ws ->
  parse_request (ws ++ request) = parse_request request.
Proof.
  induction 1 as [|w ws Hw _ IH]; [reflexivity|].
  rewrite <- IH. cbn [app]. unfold parse_request.
  rewrite (contains_GET_skip w _ Hw).
  unfold split. cbn [split_from]. now rewrite Hw.
Qed.

Lemma parse_request_leading_space_witness :
  parse_request (u (CRLF ++ " GET /index.html HTTP/1.1" ++ CRLF ++ CRLF)) = Ok (u "/index.html").
Proof.
  assert (H : Forall (fun c => isspace c = true) (u (CRLF ++ " ")))
    by (repeat constructor).
  etransitivity.
  - exact (parse_request_leading_space (u (CRLF ++ " "))
             (u ("GET /index.html HTTP/1.1" ++ CRLF ++ CRLF)) H).
  - reflexivity.
Defined.

Lemma stat_trailing_slash (e : env) (p : str) (x : node) :
  stat e p = Some x ->
  stat e (p ++ [SEP]) = match x with Dir _ _ => Some x | _ => None end.
Proof.
  intros H. change (p ++ [SEP]) with (p ++ SEP :: []).
  rewrite stat_cut, walk_app. unfold stat in H.
  destruct (startswith [SEP] p) eqn:Habs; [|discriminate].
  rewrite (startswith_sep_prefix p _ Habs).
  destruct (walk [root e] (split_sep SEP p)) as [[|y st]|]; try discriminate.
  injection H as ->. cbn [split_sep walk step].
  now destruct x.
Qed.

(** X16: a slash after the path changes nothing for a directory and hides
    a file: when [path] names a directory, [path] followed by "/" gets the
    same result; when it names a regular file, [path] followed by "/" is
    not found. *)
Theorem trailing_slash (e : env) (path : str) :
  (forall l ch,
      stat e (webroot_path e path) = Some (Dir l ch) ->
      response_path e (path ++ [SEP]) = response_path e path)
  /\ (forall data,
        stat e (webroot_path e path) = Some (File data) ->
        response_path e (path ++ [SEP]) = Raise NameError).
Proof.
  assert (Hw : webroot_path e (path ++ [SEP]) = webroot_path e path ++ [SEP]).
  { rewrite (webroot_path_app e (path ++ [SEP])), (webroot_path_app e path).
    now rewrite app_assoc. }
  split.
  - intros l ch H.
    rewrite (response_path_dir e path l ch H).
    apply response_path_dir. rewrite Hw. now rewrite (stat_trailing_slash e _ _ H).
  - intros data H. apply response_path_missing.
    rewrite Hw. now rewrite (stat_trailing_slash e _ _ H).
Qed.

Lemma trailing_slash_witness :
  response_path Demo.site (u "/images/") = response_path Demo.site (u "/images")
  /\ response_path Demo.site (u "/index.html/") = Raise NameError.
Proof.
  destruct (trailing_slash Demo.site (u "/images")) as [Hd _].
  destruct (trailing_slash Demo.site (u "/index.html")) as [_ Hf].
  split.
  - exact (Hd true _ eq_refl).
  - exact (Hf _ eq_refl).
Defined.

(* ================================================================== *)
(** * [encode] and [decode] *)

(** X17: [encode] and [decode] undo each other: bytes that decode are
    what the decoded text encodes to, text that encodes is what its bytes
    decode to, and the text that can be encoded is the text without lone
    surrogates (every code point a scalar value), which is all that
    [decode] ever produces. *)
Theorem encode_decode_round_trip :
  (forall (x : str) (d : bytes), encode x = Ok d -> decode d = Ok x)
  /\ (forall (d : bytes) (x : str), decode d = Ok x -> encode x = Ok d /\ Forall scalar x)
  /\ (forall x : str, is_ok (encode x) = true <-> Forall scalar x).
Proof.
  assert (H1 : forall x d, encode x = Ok d -> decode d = Ok x).
  { intros x d. unfold encode, decode.
    destruct (utf8_encode x) as [d'|] eqn:E; [|discriminate].
    intros [= <-]. now rewrite (utf8_decode_encode x d' E). }
  assert (H2 : forall d x, decode d = Ok x -> encode x = Ok d /\ Forall scalar x).
  { intros d x. unfold encode, decode.
    destruct (utf8_decode d) as [x'|] eqn:E; [|discriminate].
    intros [= <-]. destruct (utf8_encode_decode d x' E) as [-> Hs]. now split. }
  split; [exact H1|]. split; [exact H2|].
  intros x. split.
  - destruct (encode x) as [d|] eqn:E; [|discriminate].
    intros _. exact (proj2 (H2 d x (H1 x d E))).
  - intros Hs. unfold encode. now destruct (utf8_encode_scalar x Hs) as [d ->].
Qed.
